(** * SimpleVector: a shallow embedding of [simple_vector.h]

    The class template [SimpleVector<Type>] keeps three members: the owning
    pointer [array_], the logical size [size_] and the capacity [capacity_].
    Member functions are embedded as functions from the state of [*this] to
    an [outcome]; constructors and free functions return a [result].

    - [size_t] values are numbers in [N]; the arithmetic the source performs
      on them ([size_ * 2], [size_ + 1], [size_ - 1], [--size_]) wraps
      modulo [2^64].
    - An iterator ([Type *]) is the position it denotes inside the block
      owned by [array_]; [begin()] is position [0], [end()] position [size_].
    - A call that breaks a precondition of the language or of a standard
      algorithm (a slot outside the block, an invalid range, a failed
      [assert]) has the result [Undefined]; a member function in which
      that happens has the outcome [Fault].
    - Moving an element is embedded as copying it: the value left in the
      moved-from slot is never observed by the functions below. *)

From Stdlib Require Import NArith Lia.
From stdpp Require Import base option list.

Local Open Scope N_scope.

(** ** [size_t] arithmetic *)

Definition SIZE_MAX : N := 2 ^ 64 - 1.
Definition PTRDIFF_MAX : N := 2 ^ 63 - 1.

Definition size_t (n : N) : N := n mod 2 ^ 64.
Definition size_t_add (a b : N) : N := size_t (a + b).
Definition size_t_mul (a b : N) : N := size_t (a * b).
Definition size_t_sub (a b : N) : N := size_t (a + 2 ^ 64 - size_t b).

(** ** Results of calls *)

Inductive exception : Set :=
| out_of_range
| bad_alloc.

Inductive result (A : Type) : Type :=
| Ok (a : A)
| Throw (e : exception)
| Undefined.

Arguments Ok {A} a.
Arguments Throw {A} e.
Arguments Undefined {A}.

#[global] Instance result_bind : MBind result := λ A B f r,
  match r with
  | Ok a => f a
  | Throw e => Throw e
  | Undefined => Undefined
  end.

#[global] Instance result_fmap : FMap result := λ A B f r,
  match r with
  | Ok a => Ok (f a)
  | Throw e => Throw e
  | Undefined => Undefined
  end.

(** ** The standard algorithms the header calls

    A block of storage is the list of its slots.  A range [[first, last)]
    over a block is valid when [first <= last] and [last] is at most one
    past the last slot. *)

Module std.
Section algorithms.
Context {T : Type}.

Definition slots (a : list T) : N := N.of_nat (length a).

Definition valid_range (a : list T) (first last : N) : bool :=
  (first <=? last) && (last <=? slots a).

(** [for (; first != last; ++first) *first = gen();] *)
Fixpoint generate_loop (n first : nat) (gen : unit → T) (a : list T) : list T :=
  match n with
  | O => a
  | S n' => generate_loop n' (S first) gen (<[first := gen tt]> a)
  end.

Definition generate (a : list T) (first last : N) (gen : unit → T) : result (list T) :=
  if valid_range a first last
  then Ok (generate_loop (N.to_nat (last - first)) (N.to_nat first) gen a)
  else Undefined.

(** [for (; first != last; ++first) *first = value;] *)
Fixpoint fill_loop (n first : nat) (value : T) (a : list T) : list T :=
  match n with
  | O => a
  | S n' => fill_loop n' (S first) value (<[first := value]> a)
  end.

Definition fill (a : list T) (first last : N) (value : T) : result (list T) :=
  if valid_range a first last
  then Ok (fill_loop (N.to_nat (last - first)) (N.to_nat first) value a)
  else Undefined.

(** [std::copy] from a block [src] into a different block [dst]:
    [for (; first != last; ++first, ++d_first) *d_first = *first;] *)
Fixpoint copy_loop (n : nat) (src : list T) (first d_first : nat) (dst : list T) : list T :=
  match n with
  | O => dst
  | S n' =>
      match src !! first with
      | Some x => copy_loop n' src (S first) (S d_first) (<[d_first := x]> dst)
      | None => dst
      end
  end.

Definition copy (src : list T) (first last : N) (dst : list T) (d_first : N)
  : result (list T) :=
  if valid_range src first last && (d_first + (last - first) <=? slots dst)
  then Ok (copy_loop (N.to_nat (last - first)) src (N.to_nat first) (N.to_nat d_first) dst)
  else Undefined.

(** [std::copy] when source and destination lie in the same block [a]:
    every step reads the block as the earlier steps left it. *)
Fixpoint copy_within_loop (n first d_first : nat) (a : list T) : list T :=
  match n with
  | O => a
  | S n' =>
      match a !! first with
      | Some x => copy_within_loop n' (S first) (S d_first) (<[d_first := x]> a)
      | None => a
      end
  end.

(** The destination must not begin inside [[first, last)]. *)
Definition copy_within (a : list T) (first last d_first : N) : result (list T) :=
  if valid_range a first last
     && (d_first + (last - first) <=? slots a)
     && negb ((first <=? d_first) && (d_first <? last))
  then Ok (copy_within_loop (N.to_nat (last - first)) (N.to_nat first) (N.to_nat d_first) a)
  else Undefined.

(** [std::copy_backward] inside one block:
    [while (first != last) *(--d_last) = *(--last);] *)
Fixpoint copy_backward_loop (n last d_last : nat) (a : list T) : list T :=
  match n, last, d_last with
  | S n', S last', S d_last' =>
      match a !! last' with
      | Some x => copy_backward_loop n' last' d_last' (<[d_last' := x]> a)
      | None => a
      end
  | _, _, _ => a
  end.

(** The destination must not end inside [(first, last]]. *)
Definition copy_backward (a : list T) (first last d_last : N) : result (list T) :=
  if valid_range a first last
     && (last - first <=? d_last) && (d_last <=? slots a)
     && negb ((first <? d_last) && (d_last <=? last))
  then Ok (copy_backward_loop (N.to_nat (last - first)) (N.to_nat last) (N.to_nat d_last) a)
  else Undefined.

(** The elements a valid range denotes. *)
Definition range (a : list T) (first last : N) : result (list T) :=
  if valid_range a first last
  then Ok (take (N.to_nat (last - first)) (drop (N.to_nat first) a))
  else Undefined.

(** [std::lexicographical_compare] with the element type's [operator<]. *)
Fixpoint lexicographical_compare (less : T → T → bool) (l1 l2 : list T) : bool :=
  match l1, l2 with
  | _, [] => false
  | [], _ :: _ => true
  | x :: l1', y :: l2' =>
      if less x y then true
      else if less y x then false
      else lexicographical_compare less l1' l2'
  end.

Definition max (a b : N) : N := if a <? b then b else a.
End algorithms.
End std.

(** ** What the class template asks of its parameters and of the heap *)

(** [Type{}], the value-initialised element. *)
Class Default (T : Type) := value_init : T.

(** The element type's [operator<]. *)
Class Less (T : Type) := less : T → T → bool.

(** The largest number of slots an array allocation is granted; a larger
    request fails with [std::bad_alloc]. *)
Class Heap := max_slots : N.

(** ** [ArrayPtr<Type>] *)

Module ArrayPtr.
Section array_ptr.
Context {T : Type} `{!Default T} `{!Heap}.

(** Modelled from the spec: [array_ptr.h] is not among the sources.  The
    owning buffer is the block its [raw_pointer] refers to, given as the
    list of its slots; the null/empty sentinel owns no slot. *)
Definition t : Type := list T.

(** Modelled from the spec: the default-constructed buffer of
    [array_ptr.h] is the null/empty sentinel. *)
Definition null : t := [].

(** Modelled from the spec: Allocate(n) of [array_ptr.h] acquires exactly
    [n] slots, each default-initialized; [n == 0] allocates nothing; it
    fails with an allocation-failure condition if memory cannot be
    obtained. *)
Definition new (n : N) : result t :=
  if n =? 0 then Ok null
  else if n <=? max_slots then Ok (replicate (N.to_nat n) value_init)
  else Throw bad_alloc.

(** Modelled from the spec: index access of [array_ptr.h] refers to slot
    [i] without bounds checking; undefined behavior outside the block. *)
Definition get (a : t) (i : N) : result T :=
  match @lookup nat T (list T) _ (N.to_nat i) a with
  | Some x => Ok x
  | None => Undefined
  end.

(** Modelled from the spec: assignment through the unchecked index access
    of [array_ptr.h]. *)
Definition set (a : t) (i : N) (x : T) : result t :=
  if i <? std.slots a then Ok (@insert nat T (list T) _ (N.to_nat i) x a)
  else Undefined.

(** Modelled from the spec: Swap(other) of [array_ptr.h] exchanges the
    owned allocations; the result is the pair (this, other). *)
Definition swap (this other : t) : t * t := (other, this).

(** Modelled from the spec: Exchange-ownership(other) of [array_ptr.h]
    transfers the allocation from [other] into [this], leaving [other] in
    the null/empty state; the result is the pair (this, other). *)
Definition exchange (this other : t) : t * t := (other, null).
End array_ptr.

Arguments t T : clear implicits.
End ArrayPtr.

(** ** [ReserveProxyObj] and the free function [Reserve] *)

Module ReserveProxyObj.
Record t : Set := mk { size_ : N }.

Definition GetReservedCapacity (p : t) : N := size_ p.
End ReserveProxyObj.

Definition Reserve (capacity_to_reserve : N) : ReserveProxyObj.t :=
  ReserveProxyObj.mk capacity_to_reserve.

(** ** [SimpleVector<Type>] *)

Module SimpleVector.
Section simple_vector.
Context {T : Type} `{!Default T} `{!Heap}.

Record t : Type := mk {
  array_ : ArrayPtr.t T;
  size_ : N;
  capacity_ : N
}.

(** The outcome of a member function call: the value it returns or the
    exception it throws, with the state [*this] is left in. *)
Inductive outcome (A : Type) : Type :=
| Return (a : A) (this : t)
| Raise (e : exception) (this : t)
| Fault.

#[global] Arguments Return {A} a this.
#[global] Arguments Raise {A} e this.
#[global] Arguments Fault {A}.

(** Evaluate [r] inside a member function whose object is in state [this]. *)
Definition eval {X A : Type} (this : t) (r : result X) (k : X → outcome A) : outcome A :=
  match r with
  | Ok x => k x
  | Throw e => Raise e this
  | Undefined => Fault
  end.

(** Sequence two member function calls on the same object. *)
Definition and_then {A B : Type} (o : outcome A) (k : A → t → outcome B) : outcome B :=
  match o with
  | Return a this => k a this
  | Raise e this => Raise e this
  | Fault => Fault
  end.

Definition gen_default : unit → T := λ _, value_init.

(** *** Constructors *)

(** [SimpleVector() noexcept = default] *)
Definition default : t := {| array_ := ArrayPtr.null; size_ := 0; capacity_ := 0 |}.

(** [explicit SimpleVector(size_t size)] *)
Definition from_size (size : N) : result t :=
  a ← ArrayPtr.new size;
  a ← std.generate a 0 size gen_default;
  Ok {| array_ := a; size_ := size; capacity_ := size |}.

(** [explicit SimpleVector(ReserveProxyObj reserve_proxy_obj)]: only
    [capacity_] has an initialiser; [array_] and [size_] keep their
    defaults. *)
Definition from_reserve (reserve_proxy_obj : ReserveProxyObj.t) : t :=
  {| array_ := ArrayPtr.null;
     size_ := 0;
     capacity_ := ReserveProxyObj.GetReservedCapacity reserve_proxy_obj |}.

(** [SimpleVector(size_t size, const Type &value)] *)
Definition from_value (size : N) (value : T) : result t :=
  a ← ArrayPtr.new size;
  a ← std.fill a 0 size value;
  Ok {| array_ := a; size_ := size; capacity_ := size |}.

(** [SimpleVector(std::initializer_list<Type> init)] *)
Definition from_list (init : list T) : result t :=
  let n := std.slots init in
  a ← ArrayPtr.new n;
  a ← std.copy init 0 n a 0;
  Ok {| array_ := a; size_ := n; capacity_ := n |}.

(** [void swap(SimpleVector &other) noexcept]; the result is the pair
    (this, other). *)
Definition swap (this other : t) : t * t :=
  let '(a, b) := ArrayPtr.swap (array_ this) (array_ other) in
  ({| array_ := a; size_ := size_ other; capacity_ := capacity_ other |},
   {| array_ := b; size_ := size_ this; capacity_ := capacity_ this |}).

(** [void Clear() noexcept] *)
Definition Clear (this : t) : outcome unit :=
  Return tt {| array_ := array_ this; size_ := 0; capacity_ := capacity_ this |}.

(** [SimpleVector(const SimpleVector &other)] *)
Definition copy_construct (other : t) : result t :=
  copy ← from_size (size_ other);
  a ← std.copy (array_ other) 0 (size_ other) (array_ copy) 0;
  let copy := {| array_ := a; size_ := size_ copy; capacity_ := capacity_ copy |} in
  Ok (fst (swap default copy)).

(** [SimpleVector(SimpleVector &&other) noexcept]; the result is the pair
    (this, other). *)
Definition move_construct (other : t) : result (t * t) :=
  let '(a, b) := ArrayPtr.exchange (array_ default) (array_ other) in
  let this := {| array_ := a; size_ := size_ other; capacity_ := capacity_ other |} in
  let other := {| array_ := b; size_ := size_ other; capacity_ := capacity_ other |} in
  match Clear other with
  | Return _ other => Ok (this, other)
  | Raise e _ => Throw e
  | Fault => Undefined
  end.

(** [SimpleVector &operator=(const SimpleVector &rhs)] for [this != &rhs];
    the result is the state of [*this]. *)
Definition copy_assign (this rhs : t) : result t :=
  copy ← copy_construct rhs;
  Ok (fst (swap this copy)).

(** [SimpleVector &operator=(const SimpleVector &rhs)] for [this == &rhs]. *)
Definition copy_assign_self (this : t) : result t := Ok this.

(** [SimpleVector &operator=(SimpleVector &&rhs) noexcept] for
    [this != &rhs]; the result is the pair (this, rhs). *)
Definition move_assign (this rhs : t) : result (t * t) :=
  let '(a, b) := ArrayPtr.exchange (array_ this) (array_ rhs) in
  let this := {| array_ := a; size_ := size_ rhs; capacity_ := capacity_ rhs |} in
  let rhs := {| array_ := b; size_ := size_ rhs; capacity_ := capacity_ rhs |} in
  match Clear rhs with
  | Return _ rhs => Ok (this, rhs)
  | Raise e _ => Throw e
  | Fault => Undefined
  end.

(** [SimpleVector &operator=(SimpleVector &&rhs) noexcept] for
    [this == &rhs]. *)
Definition move_assign_self (this : t) : result t := Ok this.

(** *** Observers *)

Definition GetSize (this : t) : N := size_ this.
Definition GetCapacity (this : t) : N := capacity_ this.
Definition IsEmpty (this : t) : bool := size_ this =? 0.

(** [begin()], [cbegin()]: [&array_[0]]; [end()], [cend()]: [&array_[size_]]. *)
Definition begin (this : t) : N := 0.
Definition end_ (this : t) : N := size_ this.

(** [operator[](size_t index)]: the slot read through the reference. *)
Definition subscript (index : N) (this : t) : outcome T :=
  eval this (ArrayPtr.get (array_ this) index) (λ x, Return x this).

(** [At(size_t index)], both overloads. *)
Definition At (index : N) (this : t) : outcome T :=
  if size_ this <=? index then Raise out_of_range this
  else eval this (ArrayPtr.get (array_ this) index) (λ x, Return x this).

(** Assignment through the reference [operator[]] returns: [v[index] = x]. *)
Definition subscript_assign (index : N) (x : T) (this : t) : outcome unit :=
  eval this (ArrayPtr.set (array_ this) index x)
    (λ a, Return tt {| array_ := a; size_ := size_ this; capacity_ := capacity_ this |}).

(** *** Modifiers *)

(** [void Resize(size_t new_size)] *)
Definition Resize (new_size : N) (this : t) : outcome unit :=
  if new_size <? size_ this then
    Return tt {| array_ := array_ this; size_ := new_size; capacity_ := capacity_ this |}
  else if (size_ this <? new_size) && (new_size <=? capacity_ this) then
    eval this (std.generate (array_ this) (begin this + size_ this) (begin this + new_size) gen_default)
      (λ a, Return tt {| array_ := a; size_ := new_size; capacity_ := capacity_ this |})
  else if capacity_ this <? new_size then
    let new_capacity := std.max new_size (size_t_mul (size_ this) 2) in
    eval this
      (new_array ← ArrayPtr.new new_capacity;
       new_array ← std.copy (array_ this) (begin this) (end_ this) new_array 0;
       std.generate new_array (0 + size_ this) (0 + new_size) gen_default)
      (λ new_array,
         let '(a, _) := ArrayPtr.swap (array_ this) new_array in
         Return tt {| array_ := a; size_ := new_size; capacity_ := new_capacity |})
  else Return tt this.

(** [void PushBack(const Type &item)] and [void PushBack(Type &&item)] *)
Definition PushBack (item : T) (this : t) : outcome unit :=
  and_then (Resize (size_t_add (size_ this) 1) this) (λ _ this,
    eval this (ArrayPtr.set (array_ this) (size_t_sub (size_ this) 1) item)
      (λ a, Return tt {| array_ := a; size_ := size_ this; capacity_ := capacity_ this |})).

(** [Iterator Insert(ConstIterator pos, const Type &value)] and
    [Iterator Insert(ConstIterator pos, Type &&value)]; [pos] is given by
    [index = std::distance(cbegin(), pos)], and the iterator returned is
    the position [&array_[index]] in the block the vector owns afterwards. *)
Definition Insert (index : N) (value : T) (this : t) : outcome N :=
  and_then (Resize (size_t_add (size_ this) 1) this) (λ _ this,
    eval this
      (a ← std.copy_backward (array_ this)
             (begin this + index) (size_t_sub (end_ this) 1) (end_ this);
       ArrayPtr.set a index value)
      (λ a, Return index {| array_ := a; size_ := size_ this; capacity_ := capacity_ this |})).

(** [void PopBack() noexcept] *)
Definition PopBack (this : t) : outcome unit :=
  if IsEmpty this then Return tt this
  else Return tt {| array_ := array_ this;
                    size_ := size_t_sub (size_ this) 1;
                    capacity_ := capacity_ this |}.

(** [Iterator Erase(ConstIterator pos)]; [pos] is given by
    [index = std::distance(cbegin(), pos)].  The [assert] asks for
    [begin() <= pos < end()]. *)
Definition Erase (index : N) (this : t) : outcome N :=
  if (begin this <=? index) && (index <? end_ this) then
    eval this (std.copy_within (array_ this) (begin this + index + 1) (end_ this) index)
      (λ a, Return index {| array_ := a;
                            size_ := size_t_sub (size_ this) 1;
                            capacity_ := capacity_ this |})
  else Fault.

(** [void Reserve(size_t new_capacity)] *)
Definition Reserve (new_capacity : N) (this : t) : outcome unit :=
  if capacity_ this <? new_capacity then
    eval this
      (new_array ← ArrayPtr.new new_capacity;
       std.copy (array_ this) (begin this) (end_ this) new_array 0)
      (λ new_array,
         let '(a, _) := ArrayPtr.swap (array_ this) new_array in
         Return tt {| array_ := a; size_ := size_ this; capacity_ := new_capacity |})
  else Return tt this.

(** *** Comparison operators *)

Context `{!Less T}.

(** [operator<] *)
Definition lt (lhs rhs : t) : result bool :=
  l ← std.range (array_ lhs) (begin lhs) (end_ lhs);
  r ← std.range (array_ rhs) (begin rhs) (end_ rhs);
  Ok (std.lexicographical_compare less l r).

(** [operator>] *)
Definition gt (lhs rhs : t) : result bool := lt rhs lhs.

(** [operator==]: [!(lhs > rhs) && !(lhs < rhs)] *)
Definition eq (lhs rhs : t) : result bool :=
  g ← gt lhs rhs;
  if negb g then l ← lt lhs rhs; Ok (negb l) else Ok false.

(** [operator!=] *)
Definition ne (lhs rhs : t) : result bool := negb <$> eq lhs rhs.

(** [operator<=] *)
Definition le (lhs rhs : t) : result bool := negb <$> gt lhs rhs.

(** [operator>=] *)
Definition ge (lhs rhs : t) : result bool := negb <$> lt lhs rhs.

(** The logical sequence: the slots at positions [[0, size_)]. *)
Definition elements (this : t) : list T := take (N.to_nat (size_ this)) (array_ this).
End simple_vector.

Arguments t T : clear implicits.
Arguments outcome T A : clear implicits.
End SimpleVector.

(** ** States and relations the properties speak about *)

Section vocabulary.
Context {T : Type} `{!Default T} `{!Heap}.

(** The state a member function call leaves the object in, whether it
    returns or throws; a call that faults leaves none. *)
Definition after {A : Type} (o : SimpleVector.outcome T A) (this : SimpleVector.t T) : Prop :=
  match o with
  | SimpleVector.Return _ v => this = v
  | SimpleVector.Raise _ v => this = v
  | SimpleVector.Fault => False
  end.

(** The states a vector can be in: those the constructors produce and those
    the public operations lead to from them. *)
Inductive reachable : SimpleVector.t T → Prop :=
| reach_default :
    reachable SimpleVector.default
| reach_from_size size v :
    SimpleVector.from_size size = Ok v → reachable v
| reach_from_reserve p :
    reachable (SimpleVector.from_reserve p)
| reach_from_value size value v :
    SimpleVector.from_value size value = Ok v → reachable v
| reach_from_list init v :
    SimpleVector.from_list init = Ok v → reachable v
| reach_copy_construct other v :
    reachable other → SimpleVector.copy_construct other = Ok v → reachable v
| reach_move_construct other v other' :
    reachable other → SimpleVector.move_construct other = Ok (v, other') →
    reachable v
| reach_move_construct_source other v other' :
    reachable other → SimpleVector.move_construct other = Ok (v, other') →
    reachable other'
| reach_copy_assign this rhs v :
    reachable this → reachable rhs → SimpleVector.copy_assign this rhs = Ok v →
    reachable v
| reach_copy_assign_self this v :
    reachable this → SimpleVector.copy_assign_self this = Ok v → reachable v
| reach_move_assign this rhs v rhs' :
    reachable this → reachable rhs →
    SimpleVector.move_assign this rhs = Ok (v, rhs') → reachable v
| reach_move_assign_source this rhs v rhs' :
    reachable this → reachable rhs →
    SimpleVector.move_assign this rhs = Ok (v, rhs') → reachable rhs'
| reach_move_assign_self this v :
    reachable this → SimpleVector.move_assign_self this = Ok v → reachable v
| reach_swap this other :
    reachable this → reachable other →
    reachable (fst (SimpleVector.swap this other))
| reach_swap_other this other :
    reachable this → reachable other →
    reachable (snd (SimpleVector.swap this other))
| reach_subscript_assign index x this v :
    reachable this → after (SimpleVector.subscript_assign index x this) v →
    reachable v
| reach_Clear this v :
    reachable this → after (SimpleVector.Clear this) v → reachable v
| reach_Resize new_size this v :
    reachable this → after (SimpleVector.Resize new_size this) v → reachable v
| reach_PushBack item this v :
    reachable this → after (SimpleVector.PushBack item this) v → reachable v
| reach_Insert index value this v :
    reachable this → after (SimpleVector.Insert index value this) v → reachable v
| reach_PopBack this v :
    reachable this → after (SimpleVector.PopBack this) v → reachable v
| reach_Erase index this v :
    reachable this → after (SimpleVector.Erase index this) v → reachable v
| reach_Reserve new_capacity this v :
    reachable this → after (SimpleVector.Reserve new_capacity this) v → reachable v.

(** What every reachable state satisfies: the logical sequence lies inside
    the owned block, the block is one the heap grants, the size does not
    exceed the capacity, and the block has [capacity_] slots unless the
    vector owns no block at all. *)
Definition inv (v : SimpleVector.t T) : Prop :=
  SimpleVector.size_ v ≤ std.slots (SimpleVector.array_ v)
  ∧ std.slots (SimpleVector.array_ v) ≤ max_slots
  ∧ SimpleVector.size_ v ≤ SimpleVector.capacity_ v
  ∧ (std.slots (SimpleVector.array_ v) = SimpleVector.capacity_ v
     ∨ SimpleVector.array_ v = ArrayPtr.null).

(** The data model's invariant: the size does not exceed the capacity and
    [capacity_] mirrors the number of slots of the owned block. *)
Definition wf (v : SimpleVector.t T) : Prop :=
  SimpleVector.size_ v ≤ SimpleVector.capacity_ v
  ∧ std.slots (SimpleVector.array_ v) = SimpleVector.capacity_ v
  ∧ SimpleVector.capacity_ v ≤ max_slots.

(** Lexicographic order on sequences, as the words say: the first
    sequence is a proper prefix of the second, or at the first position
    where they differ its element is the smaller one. *)
Inductive lex_lt `{!Less T} : list T → list T → Prop :=
| lex_lt_prefix y l2 : lex_lt [] (y :: l2)
| lex_lt_head x y l1 l2 : less x y = true → lex_lt (x :: l1) (y :: l2)
| lex_lt_tail x l1 l2 : lex_lt l1 l2 → lex_lt (x :: l1) (x :: l2).

(** A comparable element type: [operator<] is irreflexive, and two elements
    neither of which is less than the other are equal. *)
Definition comparable `{!Less T} : Prop :=
  (∀ x : T, less x x = false)
  ∧ (∀ x y : T, less x y = false → less y x = false → x = y).

(** [operator<] on elements never holds in both directions. *)
Definition asymmetric `{!Less T} : Prop :=
  ∀ x y : T, less x y = true → less y x = false.

(** Neither element is less than the other. *)
Definition unordered `{!Less T} (x y : T) : Prop :=
  less x y = false ∧ less y x = false.

End vocabulary.

Arguments comparable T {_}.
Arguments asymmetric T {_}.

(** ** Concrete parameters for the examples *)

Definition N_Default : Default N := 0.
Definition N_Less : Less N := N.ltb.
Definition heap_1000 : Heap := 1000.

Definition v123 : SimpleVector.t N := SimpleVector.mk [1; 2; 3] 3 3.
Definition v124 : SimpleVector.t N := SimpleVector.mk [1; 2; 4] 3 3.
Definition v10_20_30_spare : SimpleVector.t N :=
  SimpleVector.mk [10; 20; 30; 0; 0] 3 5.
Definition v7 : SimpleVector.t N := SimpleVector.mk [7] 1 1.

(** * Properties *)

(** ** The loops of the standard algorithms, slot by slot *)

Section loops.
Context {T : Type}.
Implicit Types (a src dst : list T) (n first last d_first d_last i : nat).

Local Open Scope nat_scope.

Lemma generate_loop_length n first gen a :
  length (std.generate_loop n first gen a) = length a.
Proof.
  revert first a. induction n as [|n IH]; intros first a; simpl; [done|].
  by rewrite IH, length_insert.
Qed.

Lemma generate_loop_lookup n first gen a i :
  first + n ≤ length a →
  std.generate_loop n first gen a !! i
  = if decide (first ≤ i < first + n) then Some (gen tt) else a !! i.
Proof.
  revert first a. induction n as [|n IH]; intros first a Hlen; simpl.
  - case_decide; [lia|done].
  - rewrite IH by (rewrite length_insert; lia).
    destruct (decide (i = first)) as [->|Hne].
    + rewrite list_lookup_insert_eq by lia.
      repeat case_decide; try lia; done.
    + rewrite list_lookup_insert_ne by done.
      repeat case_decide; try lia; done.
Qed.

Lemma fill_loop_generate n first value a :
  std.fill_loop n first value a = std.generate_loop n first (λ _, value) a.
Proof.
  revert first a. induction n as [|n IH]; intros first a; simpl; [done|].
  by rewrite IH.
Qed.

Lemma copy_loop_length n src first d_first dst :
  length (std.copy_loop n src first d_first dst) = length dst.
Proof.
  revert first d_first dst.
  induction n as [|n IH]; intros first d_first dst; simpl; [done|].
  destruct (src !! first); [|done]. by rewrite IH, length_insert.
Qed.

Lemma copy_loop_lookup n src first d_first dst i :
  first + n ≤ length src →
  d_first + n ≤ length dst →
  std.copy_loop n src first d_first dst !! i
  = if decide (d_first ≤ i < d_first + n) then src !! (first + (i - d_first))
    else dst !! i.
Proof.
  revert first d_first dst.
  induction n as [|n IH]; intros first d_first dst Hsrc Hdst; simpl.
  - case_decide; [lia|done].
  - destruct (lookup_lt_is_Some_2 src first) as [x Hx]; [lia|]. rewrite Hx.
    rewrite IH by (rewrite ?length_insert; lia).
    destruct (decide (i = d_first)) as [->|Hne].
    + rewrite list_lookup_insert_eq by lia.
      repeat case_decide; try lia.
      by replace (first + (d_first - d_first)) with first by lia.
    + rewrite list_lookup_insert_ne by done.
      repeat case_decide; try lia; [|done].
      f_equal. lia.
Qed.

Lemma copy_within_loop_length n first d_first a :
  length (std.copy_within_loop n first d_first a) = length a.
Proof.
  revert first d_first a.
  induction n as [|n IH]; intros first d_first a; simpl; [done|].
  destruct (a !! first); [|done]. by rewrite IH, length_insert.
Qed.

Lemma copy_within_loop_lookup n first d_first a i :
  first + n ≤ length a →
  d_first ≤ first →
  std.copy_within_loop n first d_first a !! i
  = if decide (d_first ≤ i < d_first + n) then a !! (first + (i - d_first))
    else a !! i.
Proof.
  revert first d_first a.
  induction n as [|n IH]; intros first d_first a Hlen Hle; simpl.
  - case_decide; [lia|done].
  - destruct (lookup_lt_is_Some_2 a first) as [x Hx]; [lia|]. rewrite Hx.
    rewrite IH by (rewrite ?length_insert; lia).
    destruct (decide (i = d_first)) as [->|Hne].
    + rewrite list_lookup_insert_eq by lia.
      repeat case_decide; try lia.
      by replace (first + (d_first - d_first)) with first by lia.
    + repeat case_decide; try lia.
      * rewrite list_lookup_insert_ne by lia. f_equal. lia.
      * by rewrite list_lookup_insert_ne.
Qed.

Lemma copy_backward_loop_length n last d_last a :
  length (std.copy_backward_loop n last d_last a) = length a.
Proof.
  revert last d_last a.
  induction n as [|n IH]; intros [|last] [|d_last] a; simpl; try done.
  destruct (a !! last); [|done]. by rewrite IH, length_insert.
Qed.

End loops.

(** ** Arithmetic on [size_t] *)

Lemma size_t_small n : n < 2 ^ 64 → size_t n = n.
Proof. intros. unfold size_t. apply N.mod_small. done. Qed.

Lemma size_t_bound n : size_t n < 2 ^ 64.
Proof. unfold size_t. apply N.mod_lt. done. Qed.

Lemma size_t_sub_1 a : a ≠ 0 → a < 2 ^ 64 → size_t_sub a 1 = a - 1.
Proof.
  intros. unfold size_t_sub. rewrite (size_t_small 1) by done.
  unfold size_t.
  replace (a + 2 ^ 64 - 1) with ((a - 1) + 1 * 2 ^ 64) by lia.
  rewrite N.Div0.mod_add. apply N.mod_small. lia.
Qed.

Lemma size_t_sub_1_le a : a ≠ 0 → size_t_sub a 1 ≤ a.
Proof.
  intros. destruct (N.lt_ge_cases a (2 ^ 64)).
  - rewrite size_t_sub_1 by done. lia.
  - pose proof (size_t_bound (a + 2 ^ 64 - size_t 1)). unfold size_t_sub. lia.
Qed.

Lemma std_max_spec a b : std.max a b = N.max a b.
Proof. unfold std.max. destruct (N.ltb_spec a b); lia. Qed.

(** ** Tactics for the comparisons of the source *)

Ltac bools :=
  repeat match goal with
  | H : _ && _ = true |- _ => apply andb_true_iff in H; destruct H
  | H : _ && _ = false |- _ => apply andb_false_iff in H
  | H : negb _ = true |- _ => apply negb_true_iff in H
  | H : negb _ = false |- _ => apply negb_false_iff in H
  | H : (_ <? _) = true |- _ => apply N.ltb_lt in H
  | H : (_ <? _) = false |- _ => apply N.ltb_ge in H
  | H : (_ <=? _) = true |- _ => apply N.leb_le in H
  | H : (_ <=? _) = false |- _ => apply N.leb_gt in H
  | H : (_ =? _) = true |- _ => apply N.eqb_eq in H
  | H : (_ =? _) = false |- _ => apply N.eqb_neq in H
  end.

(** Decide the comparisons in the goal from the hypotheses. *)
Ltac branch :=
  repeat first
    [ match goal with
      | |- context [?a <? ?b] =>
          first [ replace (a <? b) with true by (symmetry; apply N.ltb_lt; lia)
                | replace (a <? b) with false by (symmetry; apply N.ltb_ge; lia) ]
      | |- context [?a <=? ?b] =>
          first [ replace (a <=? b) with true by (symmetry; apply N.leb_le; lia)
                | replace (a <=? b) with false by (symmetry; apply N.leb_gt; lia) ]
      | |- context [?a =? ?b] =>
          first [ replace (a =? b) with true by (symmetry; apply N.eqb_eq; lia)
                | replace (a =? b) with false by (symmetry; apply N.eqb_neq; lia) ]
      end
    | rewrite andb_false_r
    | progress simpl ].

(** ** Allocation, the algorithm wrappers and [Resize], branch by branch *)

Section resize.
Context {T : Type} `{!Default T} `{!Heap}.
Implicit Types v this : SimpleVector.t T.

Lemma slots_replicate n (x : T) : std.slots (replicate (N.to_nat n) x) = n.
Proof. unfold std.slots. rewrite length_replicate. lia. Qed.

Lemma new_Ok n : n ≠ 0 → n ≤ max_slots → ArrayPtr.new n = Ok (replicate (N.to_nat n) value_init).
Proof. intros. unfold ArrayPtr.new. by branch. Qed.

Lemma new_zero : ArrayPtr.new 0 = Ok (@ArrayPtr.null T).
Proof. done. Qed.

Lemma new_bad_alloc n : max_slots < n → ArrayPtr.new n = @Throw (ArrayPtr.t T) bad_alloc.
Proof. intros. unfold ArrayPtr.new. by branch. Qed.

Lemma generate_Ok (a : list T) first last gen :
  first ≤ last → last ≤ std.slots a →
  std.generate a first last gen
  = Ok (std.generate_loop (N.to_nat (last - first)) (N.to_nat first) gen a).
Proof. intros. unfold std.generate, std.valid_range. by branch. Qed.

Lemma generate_Undefined (a : list T) first last gen :
  std.slots a < last → std.generate a first last gen = Undefined.
Proof.
  intros. unfold std.generate, std.valid_range. by branch.
Qed.

Lemma copy_Ok (src dst : list T) first last d_first :
  first ≤ last → last ≤ std.slots src → d_first + (last - first) ≤ std.slots dst →
  std.copy src first last dst d_first
  = Ok (std.copy_loop (N.to_nat (last - first)) src (N.to_nat first) (N.to_nat d_first) dst).
Proof. intros. unfold std.copy, std.valid_range. by branch. Qed.

Lemma Resize_shrink new_size v :
  new_size < SimpleVector.size_ v →
  SimpleVector.Resize new_size v
  = SimpleVector.Return tt
      (SimpleVector.mk (SimpleVector.array_ v) new_size (SimpleVector.capacity_ v)).
Proof. intros. unfold SimpleVector.Resize. by branch. Qed.

Lemma Resize_same v :
  SimpleVector.size_ v ≤ SimpleVector.capacity_ v →
  SimpleVector.Resize (SimpleVector.size_ v) v = SimpleVector.Return tt v.
Proof. intros. unfold SimpleVector.Resize. by branch. Qed.

Lemma Resize_in_place new_size v :
  SimpleVector.size_ v < new_size →
  new_size ≤ SimpleVector.capacity_ v →
  new_size ≤ std.slots (SimpleVector.array_ v) →
  SimpleVector.Resize new_size v
  = SimpleVector.Return tt
      (SimpleVector.mk
         (std.generate_loop (N.to_nat (new_size - SimpleVector.size_ v))
            (N.to_nat (SimpleVector.size_ v)) SimpleVector.gen_default
            (SimpleVector.array_ v))
         new_size (SimpleVector.capacity_ v)).
Proof.
  intros. unfold SimpleVector.Resize, SimpleVector.begin. branch.
  rewrite generate_Ok by lia. simpl. repeat f_equal; lia.
Qed.

Lemma Resize_no_block new_size v :
  SimpleVector.size_ v < new_size →
  new_size ≤ SimpleVector.capacity_ v →
  std.slots (SimpleVector.array_ v) < new_size →
  SimpleVector.Resize new_size v = SimpleVector.Fault.
Proof.
  intros. unfold SimpleVector.Resize, SimpleVector.begin. branch.
  by rewrite generate_Undefined by lia.
Qed.

Lemma Resize_realloc new_size v :
  SimpleVector.size_ v ≤ SimpleVector.capacity_ v →
  SimpleVector.size_ v ≤ std.slots (SimpleVector.array_ v) →
  SimpleVector.capacity_ v < new_size →
  std.max new_size (size_t_mul (SimpleVector.size_ v) 2) ≤ max_slots →
  SimpleVector.Resize new_size v
  = SimpleVector.Return tt
      (SimpleVector.mk
         (std.generate_loop (N.to_nat (new_size - SimpleVector.size_ v))
            (N.to_nat (SimpleVector.size_ v)) SimpleVector.gen_default
            (std.copy_loop (N.to_nat (SimpleVector.size_ v)) (SimpleVector.array_ v) 0 0
               (replicate
                  (N.to_nat (std.max new_size (size_t_mul (SimpleVector.size_ v) 2)))
                  value_init)))
         new_size (std.max new_size (size_t_mul (SimpleVector.size_ v) 2))).
Proof.
  intros Hc Hs Hn Hm. unfold SimpleVector.Resize, SimpleVector.begin, SimpleVector.end_.
  branch.
  pose proof (std_max_spec new_size (size_t_mul (SimpleVector.size_ v) 2)) as Hmax.
  rewrite new_Ok by lia. simpl.
  rewrite copy_Ok by (rewrite ?slots_replicate; lia). simpl.
  rewrite generate_Ok
    by (unfold std.slots; rewrite ?copy_loop_length, ?length_replicate; lia).
  simpl. repeat f_equal; lia.
Qed.

Lemma Resize_bad_alloc new_size v :
  SimpleVector.size_ v ≤ SimpleVector.capacity_ v →
  SimpleVector.capacity_ v < new_size →
  max_slots < std.max new_size (size_t_mul (SimpleVector.size_ v) 2) →
  SimpleVector.Resize new_size v = SimpleVector.Raise bad_alloc v.
Proof.
  intros Hc Hn Hm. unfold SimpleVector.Resize. branch.
  pose proof (std_max_spec new_size (size_t_mul (SimpleVector.size_ v) 2)) as Hmax.
  by rewrite new_bad_alloc by lia.
Qed.
End resize.

(** ** Reading slots of lists built from [take], [++] and [replicate] *)

Section slotwise.
Context {T : Type}.

Lemma lookup_replicate_decide (n i : nat) (x : T) :
  replicate n x !! i = if decide (i < n)%nat then Some x else None.
Proof.
  case_decide.
  - by apply lookup_replicate_2.
  - apply lookup_replicate_None. lia.
Qed.

Lemma lookup_is_Some_decide (l : list T) (i : nat) :
  (i < length l)%nat → ∃ x, l !! i = Some x.
Proof. intros. by apply lookup_lt_is_Some_2. Qed.
End slotwise.

(** ** [Resize] beyond the capacity *)

Section resize_grow.
Context {T : Type} `{!Default T} `{!Heap}.
Implicit Types v : SimpleVector.t T.

Lemma size_t_mul_2 s : s * 2 ≤ max_slots → max_slots ≤ PTRDIFF_MAX → size_t_mul s 2 = s * 2.
Proof.
  intros. unfold size_t_mul. apply size_t_small.
  unfold PTRDIFF_MAX in *. lia.
Qed.

(** C3. On a heap that grants the request, [Resize(new_size)] with
    [new_size] greater than the capacity [c] of a vector of size [s] sets
    the capacity to [max(new_size, s * 2)] and the size to [new_size]; the
    new block has that many slots, the elements at [[0, s)] are the old ones
    in order, and those at [[s, new_size)] are the default value. *)
Theorem Resize_beyond_capacity new_size v :
  max_slots ≤ PTRDIFF_MAX →
  inv v →
  SimpleVector.capacity_ v < new_size →
  N.max new_size (SimpleVector.size_ v * 2) ≤ max_slots →
  ∃ v',
    SimpleVector.Resize new_size v = SimpleVector.Return tt v'
    ∧ SimpleVector.GetCapacity v' = N.max new_size (SimpleVector.size_ v * 2)
    ∧ SimpleVector.GetSize v' = new_size
    ∧ std.slots (SimpleVector.array_ v') = SimpleVector.GetCapacity v'
    ∧ SimpleVector.elements v'
      = SimpleVector.elements v
        ++ replicate (N.to_nat (new_size - SimpleVector.size_ v)) value_init.
Proof.
  intros Hheap (Hs & _ & Hc & _) Hn Hm.
  assert (size_t_mul (SimpleVector.size_ v) 2 = SimpleVector.size_ v * 2) as Hmul
    by (apply size_t_mul_2; lia).
  pose proof (std_max_spec new_size (SimpleVector.size_ v * 2)) as Hmax.
  eexists. split.
  { rewrite Resize_realloc by (rewrite ?Hmul; lia). by rewrite Hmul, Hmax. }
  unfold SimpleVector.GetCapacity, SimpleVector.GetSize, SimpleVector.elements.
  simpl. unfold std.slots in *.
  split_and!; try done.
  - rewrite generate_loop_length, copy_loop_length, length_replicate. lia.
  - apply list_eq. intros i.
    rewrite lookup_take, lookup_app, lookup_take, lookup_replicate_decide.
    rewrite length_take.
    rewrite generate_loop_lookup
      by (rewrite copy_loop_length, length_replicate; lia).
    rewrite copy_loop_lookup by (rewrite ?length_replicate; lia).
    unfold SimpleVector.gen_default.
    repeat case_decide; try done; try lia.
    destruct (lookup_is_Some_decide (SimpleVector.array_ v) i) as [x Hx]; [lia|].
    replace (0 + (i - 0))%nat with i by lia. by rewrite Hx.
Qed.
End resize_grow.

(** ** Closed forms of the loops *)

Ltac lookups :=
  repeat first
    [ rewrite lookup_take | rewrite lookup_app | rewrite lookup_drop
    | rewrite lookup_replicate_decide
    | rewrite length_take_le by lia | rewrite length_take
    | rewrite length_replicate | rewrite length_app | rewrite length_drop ].

Ltac slot_facts :=
  repeat match goal with
  | H : _ !! _ = Some _ |- _ => apply lookup_lt_Some in H
  | H : _ !! _ = None |- _ => apply lookup_ge_None_1 in H
  end.

(** Close a goal about slots after the lookups have been rewritten. *)
Ltac slots :=
  repeat case_decide; try done; try lia;
  repeat match goal with
  | |- context [match ?l !! ?i with _ => _ end] =>
      let E := fresh "E" in destruct (l !! i) eqn:E
  end;
  try done; try (f_equal; lia);
  try match goal with
      | E : ?l !! _ = ?r |- ?l !! _ = ?r => rewrite <- E; f_equal; lia
      | E : ?l !! _ = ?r |- ?r = ?l !! _ => rewrite <- E; f_equal; lia
      end;
  try (slot_facts; lia).

Section blocks.
Context {T : Type}.
Implicit Types (a src dst : list T) (n s c first last d_first d_last i : nat).
Local Open Scope nat_scope.

Lemma generate_loop_closed n first gen a :
  first + n ≤ length a →
  std.generate_loop n first gen a
  = take first a ++ replicate n (gen tt) ++ drop (first + n) a.
Proof.
  intros. apply list_eq. intros i.
  rewrite generate_loop_lookup by done. lookups. slots.
Qed.

Lemma copy_loop_closed n src first d_first dst :
  first + n ≤ length src →
  d_first + n ≤ length dst →
  std.copy_loop n src first d_first dst
  = take d_first dst ++ take n (drop first src) ++ drop (d_first + n) dst.
Proof.
  intros. apply list_eq. intros i.
  rewrite copy_loop_lookup by done. lookups.
  slots.
Qed.

Lemma copy_within_loop_closed n first d_first a :
  first + n ≤ length a →
  d_first ≤ first →
  std.copy_within_loop n first d_first a
  = take d_first a ++ take n (drop first a) ++ drop (d_first + n) a.
Proof.
  intros. apply list_eq. intros i.
  rewrite copy_within_loop_lookup by done. lookups. slots.
Qed.


(** Taking [t] slots of a block whose slots [[n, t)] were regenerated. *)
Lemma take_regenerated a n s t (d : T) :
  n ≤ s → s ≤ length a → n ≤ t → t ≤ length a →
  take t (take n a ++ replicate (t - n) d ++ drop t a)
  = take n (take s a) ++ replicate (t - n) d.
Proof.
  intros. rewrite app_assoc, take_app_length'.
  - by rewrite take_take, Nat.min_l by lia.
  - rewrite length_app, length_take_le, length_replicate by lia. lia.
Qed.
End blocks.

(** ** [Resize] below the size, then back up within the capacity *)

Section resize_shrink.
Context {T : Type} `{!Default T} `{!Heap}.
Implicit Types v : SimpleVector.t T.

Lemma inv_block v :
  inv v → SimpleVector.size_ v ≠ 0 →
  std.slots (SimpleVector.array_ v) = SimpleVector.capacity_ v.
Proof.
  intros (Hs & _ & _ & [Hb | Hb]) Hne; [done|].
  rewrite Hb in Hs. unfold std.slots, ArrayPtr.null in Hs. simpl in Hs. lia.
Qed.

(** C4. [Resize(new_size)] with [new_size] below the size only sets the
    size: block and capacity are the same.  A following [Resize(target)]
    with [target] within that capacity keeps the block and the capacity,
    and writes the default value into the slots [[new_size, target)]: the
    values that stood there before the shrink are gone. *)
Theorem Resize_shrink_then_regrow new_size v :
  inv v →
  new_size < SimpleVector.size_ v →
  let shrunk :=
    SimpleVector.mk (SimpleVector.array_ v) new_size (SimpleVector.capacity_ v) in
  SimpleVector.Resize new_size v = SimpleVector.Return tt shrunk
  ∧ ∀ target,
      new_size ≤ target →
      target ≤ SimpleVector.capacity_ v →
      ∃ v',
        SimpleVector.Resize target shrunk = SimpleVector.Return tt v'
        ∧ SimpleVector.GetSize v' = target
        ∧ SimpleVector.GetCapacity v' = SimpleVector.GetCapacity v
        ∧ SimpleVector.array_ v'
          = take (N.to_nat new_size) (SimpleVector.array_ v)
            ++ replicate (N.to_nat (target - new_size)) value_init
            ++ drop (N.to_nat target) (SimpleVector.array_ v)
        ∧ SimpleVector.elements v'
          = take (N.to_nat new_size) (SimpleVector.elements v)
            ++ replicate (N.to_nat (target - new_size)) value_init.
Proof.
  intros Hinv Hn shrunk.
  pose proof (inv_block v Hinv ltac:(lia)) as Hb.
  destruct Hinv as (Hs & _ & Hc & _).
  split; [by apply Resize_shrink|].
  intros target Hlo Hhi. unfold std.slots in *.
  assert (std.generate_loop (N.to_nat (target - new_size)) (N.to_nat new_size)
            SimpleVector.gen_default (SimpleVector.array_ v)
          = take (N.to_nat new_size) (SimpleVector.array_ v)
            ++ replicate (N.to_nat (target - new_size)) value_init
            ++ drop (N.to_nat target) (SimpleVector.array_ v)) as Harr.
  { rewrite generate_loop_closed by lia. unfold SimpleVector.gen_default.
    do 3 f_equal. lia. }
  assert (∃ v', SimpleVector.Resize target shrunk = SimpleVector.Return tt v'
                ∧ SimpleVector.size_ v' = target
                ∧ SimpleVector.capacity_ v' = SimpleVector.capacity_ v
                ∧ SimpleVector.array_ v'
                  = std.generate_loop (N.to_nat (target - new_size)) (N.to_nat new_size)
                      SimpleVector.gen_default (SimpleVector.array_ v))
    as (v' & Hret & Hsize & Hcap & Hblock).
  { destruct (N.eq_dec target new_size) as [->|Hne].
    - exists shrunk. split; [apply (Resize_same shrunk); simpl; lia|].
      by rewrite N.sub_diag.
    - eexists. split; [apply (Resize_in_place target shrunk); unfold std.slots; simpl; lia|done]. }
  exists v'. unfold SimpleVector.GetSize, SimpleVector.GetCapacity, SimpleVector.elements.
  rewrite Harr in Hblock. split_and!; try done.
  rewrite Hsize, Hblock, N2Nat.inj_sub.
  apply take_regenerated; lia.
Qed.
End resize_shrink.

(** ** The checked accessor and [PopBack] *)

Section access.
Context {T : Type} `{!Default T} `{!Heap}.
Implicit Types v : SimpleVector.t T.

(** C5. [At(index)] throws [std::out_of_range] exactly when [index] is not
    below the size; otherwise it returns the element at [index]; either way
    the vector is left as it was. *)
Theorem At_checked index v :
  inv v →
  (SimpleVector.size_ v ≤ index →
   SimpleVector.At index v = SimpleVector.Raise out_of_range v)
  ∧ (index < SimpleVector.size_ v →
     ∃ x, SimpleVector.elements v !! N.to_nat index = Some x
          ∧ SimpleVector.At index v = SimpleVector.Return x v)
  ∧ ((∃ e v', SimpleVector.At index v = SimpleVector.Raise e v')
     ↔ SimpleVector.size_ v ≤ index).
Proof.
  intros (Hs & _).
  assert (index < SimpleVector.size_ v →
          ∃ x, SimpleVector.elements v !! N.to_nat index = Some x
               ∧ SimpleVector.At index v = SimpleVector.Return x v) as Hin.
  { intros Hlt. unfold std.slots in Hs.
    destruct (lookup_is_Some_decide (SimpleVector.array_ v) (N.to_nat index))
      as [x Hx]; [lia|].
    exists x. unfold SimpleVector.elements, SimpleVector.At, ArrayPtr.get.
    rewrite lookup_take_lt by lia. rewrite Hx. by branch. }
  assert (SimpleVector.size_ v ≤ index →
          SimpleVector.At index v = SimpleVector.Raise out_of_range v) as Hout.
  { intros Hge. unfold SimpleVector.At. by branch. }
  split_and!; try done.
  split.
  - intros (e & v' & Hraise).
    destruct (N.le_gt_cases (SimpleVector.size_ v) index) as [|Hlt]; [done|].
    destruct (Hin ltac:(lia)) as (x & _ & Hret). congruence.
  - intros Hge. exists out_of_range, v. by apply Hout.
Qed.

(** C8. [PopBack] always returns.  On an empty vector it changes nothing;
    on a vector of size [s > 0] it leaves block and capacity alone and sets
    the size to [s - 1], so the elements at [[0, s - 1)] stay and the last
    one is gone. *)
Theorem PopBack_total v :
  SimpleVector.size_ v ≤ SIZE_MAX →
  ∃ v',
    SimpleVector.PopBack v = SimpleVector.Return tt v'
    ∧ SimpleVector.GetCapacity v' = SimpleVector.GetCapacity v
    ∧ SimpleVector.array_ v' = SimpleVector.array_ v
    ∧ (SimpleVector.size_ v = 0 → v' = v)
    ∧ (SimpleVector.size_ v ≠ 0 →
       SimpleVector.GetSize v' = SimpleVector.size_ v - 1
       ∧ SimpleVector.elements v'
         = take (N.to_nat (SimpleVector.size_ v - 1)) (SimpleVector.elements v)).
Proof.
  intros Hmax. unfold SimpleVector.PopBack, SimpleVector.IsEmpty.
  destruct (N.eqb_spec (SimpleVector.size_ v) 0) as [Hz|Hnz].
  - exists v. split_and!; try done.
  - eexists. split; [done|].
    unfold SimpleVector.GetCapacity, SimpleVector.GetSize, SimpleVector.elements.
    simpl. rewrite size_t_sub_1 by (unfold SIZE_MAX in *; lia).
    split_and!; try done.
    intros _. split; [done|]. rewrite take_take. f_equal. lia.
Qed.
End access.

(** ** Copying *)

Section copying.
Context {T : Type} `{!Default T} `{!Heap}.
Implicit Types a b v : SimpleVector.t T.

Lemma new_Ok_replicate n :
  n ≤ max_slots → ArrayPtr.new n = Ok (replicate (N.to_nat n) value_init).
Proof.
  intros. destruct (N.eq_dec n 0) as [->|].
  - done.
  - by apply new_Ok.
Qed.

Lemma from_size_Ok size :
  size ≤ max_slots →
  SimpleVector.from_size size
  = Ok (SimpleVector.mk
          (std.generate_loop (N.to_nat size) 0 SimpleVector.gen_default
             (replicate (N.to_nat size) value_init))
          size size).
Proof.
  intros. unfold SimpleVector.from_size.
  rewrite new_Ok_replicate by done. simpl.
  rewrite generate_Ok by (rewrite ?slots_replicate; lia). simpl.
  by rewrite N.sub_0_r.
Qed.

Lemma copy_construct_Ok a :
  inv a →
  SimpleVector.copy_construct a
  = Ok (SimpleVector.mk
          (take (N.to_nat (SimpleVector.size_ a)) (SimpleVector.array_ a))
          (SimpleVector.size_ a) (SimpleVector.size_ a)).
Proof.
  intros (Hs & Hm & _). unfold SimpleVector.copy_construct.
  rewrite from_size_Ok by lia. simpl. unfold std.slots in *.
  rewrite copy_Ok
    by (unfold std.slots; rewrite ?generate_loop_length, ?length_replicate; lia).
  simpl. do 2 f_equal.
  rewrite N.sub_0_r.
  rewrite copy_loop_closed
    by (rewrite ?generate_loop_length, ?length_replicate; lia).
  change (N.to_nat 0) with O. rewrite drop_0. simpl.
  rewrite drop_ge by (rewrite generate_loop_length, length_replicate; lia).
  by rewrite app_nil_r.
Qed.

(** C10. A copy, made by the copy constructor or by copy assignment from a
    different vector, has the size and the elements of the original and a
    capacity equal to the original's size: capacity beyond the size is not
    carried over. *)
Theorem copy_capacity_is_size a :
  inv a →
  ∃ b,
    SimpleVector.copy_construct a = Ok b
    ∧ (∀ this, SimpleVector.copy_assign this a = Ok b)
    ∧ SimpleVector.GetSize b = SimpleVector.GetSize a
    ∧ SimpleVector.elements b = SimpleVector.elements a
    ∧ SimpleVector.GetCapacity b = SimpleVector.GetSize a
    ∧ (SimpleVector.GetSize a < SimpleVector.GetCapacity a →
       SimpleVector.GetCapacity b ≠ SimpleVector.GetCapacity a).
Proof.
  intros Hinv. eexists. split; [by apply copy_construct_Ok|].
  unfold SimpleVector.copy_assign, SimpleVector.GetSize, SimpleVector.GetCapacity,
    SimpleVector.elements.
  rewrite copy_construct_Ok by done. simpl.
  split_and!; try done.
  - by rewrite take_take, Nat.min_id.
  - lia.
Qed.
End copying.

(** ** Shifting a tail by one slot *)

Section shifting.
Context {T : Type}.
Implicit Types (a : list T) (s p i : nat).
Local Open Scope nat_scope.


(** What [Erase] leaves in the first [s - 1] slots. *)
Lemma erase_shift a s p :
  p < s → s ≤ length a →
  take (s - 1) (std.copy_within_loop (s - S p) (S p) p a)
  = take p (take s a) ++ drop (S p) (take s a).
Proof.
  intros. rewrite copy_within_loop_closed by lia.
  apply list_eq. intros i. lookups. slots.
Qed.

End shifting.

Section prefixes.
Context {T : Type}.
Implicit Types (a src dst : list T) (s n k first : nat).
Local Open Scope nat_scope.


Lemma take_copy_loop s src dst :
  s ≤ length src → s ≤ length dst →
  take s (std.copy_loop s src 0 0 dst) = take s src.
Proof.
  intros. rewrite copy_loop_closed by done. simpl. rewrite drop_0.
  by rewrite take_app_length' by (rewrite length_take; lia).
Qed.
End prefixes.

(** ** [Insert] and [Erase] *)

Section insert_erase.
Context {T : Type} `{!Default T} `{!Heap}.
Implicit Types v : SimpleVector.t T.



Lemma copy_within_Ok (a : list T) first last d_first :
  first ≤ last → last ≤ std.slots a → d_first < first →
  std.copy_within a first last d_first
  = Ok (std.copy_within_loop (N.to_nat (last - first)) (N.to_nat first)
          (N.to_nat d_first) a).
Proof. intros. unfold std.copy_within, std.valid_range. by branch. Qed.

Lemma set_Ok (a : list T) i x :
  i < std.slots a → ArrayPtr.set a i x = Ok (<[N.to_nat i := x]> a).
Proof. intros. unfold ArrayPtr.set. by branch. Qed.



Lemma Erase_in_block index v :
  SimpleVector.size_ v ≤ std.slots (SimpleVector.array_ v) →
  SimpleVector.size_ v ≤ SIZE_MAX →
  index < SimpleVector.size_ v →
  ∃ v2,
    SimpleVector.Erase index v = SimpleVector.Return index v2
    ∧ SimpleVector.size_ v2 = SimpleVector.size_ v - 1
    ∧ SimpleVector.capacity_ v2 = SimpleVector.capacity_ v
    ∧ std.slots (SimpleVector.array_ v2) = std.slots (SimpleVector.array_ v)
    ∧ SimpleVector.elements v2
      = take (N.to_nat index) (SimpleVector.elements v)
        ++ drop (S (N.to_nat index)) (SimpleVector.elements v).
Proof.
  intros Hs Hmax Hp.
  unfold SimpleVector.Erase, SimpleVector.begin, SimpleVector.end_. branch.
  rewrite !N.add_0_l.
  rewrite copy_within_Ok by lia. simpl.
  rewrite size_t_sub_1 by (unfold SIZE_MAX in *; lia).
  eexists. split; [done|].
  unfold SimpleVector.elements, std.slots in *. simpl.
  rewrite copy_within_loop_length.
  split_and!; try done.
  replace (N.to_nat (SimpleVector.size_ v - (index + 1)))
    with (N.to_nat (SimpleVector.size_ v) - S (N.to_nat index))%nat by lia.
  replace (N.to_nat (index + 1)) with (S (N.to_nat index)) by lia.
  replace (N.to_nat (SimpleVector.size_ v - 1))
    with (N.to_nat (SimpleVector.size_ v) - 1)%nat by lia.
  apply erase_shift; lia.
Qed.

End insert_erase.

(** ** Every reachable state satisfies the invariant *)

Section results.
Context {A B : Type}.

Lemma bind_Ok (m : result A) (k : A → result B) b :
  m ≫= k = Ok b → ∃ a, m = Ok a ∧ k a = Ok b.
Proof. destruct m; simpl; intros; [eauto|done|done]. Qed.
End results.

Section invariant.
Context {T : Type} `{!Default T} `{!Heap}.
Implicit Types v this other rhs : SimpleVector.t T.

Lemma after_eval {X A} this (r : result X) (k : X → SimpleVector.outcome T A) v' :
  after (SimpleVector.eval this r k) v' →
  (∃ x, r = Ok x ∧ after (k x) v') ∨ ((∃ e, r = Throw e) ∧ v' = this).
Proof. destruct r; simpl; intros; [left|right|]; eauto. done. Qed.

Lemma after_and_then {A B} (o : SimpleVector.outcome T A)
    (k : A → SimpleVector.t T → SimpleVector.outcome T B) v' :
  after (SimpleVector.and_then o k) v' →
  (∃ a v1, o = SimpleVector.Return a v1 ∧ after (k a v1) v')
  ∨ (∃ e, o = SimpleVector.Raise e v').
Proof.
  destruct o; simpl; intros; [left|right|]; eauto.
  - subst. eauto.
  - done.
Qed.

Lemma new_inv n (a : ArrayPtr.t T) :
  ArrayPtr.new n = Ok a → std.slots a = n ∧ n ≤ max_slots.
Proof.
  unfold ArrayPtr.new. intros. repeat case_match; simplify_eq; bools.
  - split; [done|lia].
  - by rewrite slots_replicate.
Qed.

Lemma generate_inv (a a' : list T) first last gen :
  std.generate a first last gen = Ok a' →
  std.slots a' = std.slots a ∧ last ≤ std.slots a.
Proof.
  unfold std.generate, std.valid_range. intros. case_match; simplify_eq; bools.
  unfold std.slots. by rewrite generate_loop_length.
Qed.

Lemma fill_inv (a a' : list T) first last value :
  std.fill a first last value = Ok a' →
  std.slots a' = std.slots a ∧ last ≤ std.slots a.
Proof.
  unfold std.fill, std.valid_range. intros. case_match; simplify_eq; bools.
  unfold std.slots. by rewrite fill_loop_generate, generate_loop_length.
Qed.

Lemma copy_inv (src dst dst' : list T) first last d_first :
  std.copy src first last dst d_first = Ok dst' →
  std.slots dst' = std.slots dst
  ∧ last ≤ std.slots src
  ∧ d_first + (last - first) ≤ std.slots dst.
Proof.
  unfold std.copy, std.valid_range. intros. case_match; simplify_eq; bools.
  unfold std.slots. by rewrite copy_loop_length.
Qed.

Lemma copy_within_inv (a a' : list T) first last d_first :
  std.copy_within a first last d_first = Ok a' → std.slots a' = std.slots a.
Proof.
  unfold std.copy_within. intros. case_match; simplify_eq.
  unfold std.slots. by rewrite copy_within_loop_length.
Qed.

Lemma copy_backward_inv (a a' : list T) first last d_last :
  std.copy_backward a first last d_last = Ok a' → std.slots a' = std.slots a.
Proof.
  unfold std.copy_backward. intros. case_match; simplify_eq.
  unfold std.slots. by rewrite copy_backward_loop_length.
Qed.

Lemma set_inv (a a' : ArrayPtr.t T) i x :
  ArrayPtr.set a i x = Ok a' → std.slots a' = std.slots a ∧ i < std.slots a.
Proof.
  unfold ArrayPtr.set. intros. case_match; simplify_eq; bools.
  unfold std.slots. by rewrite length_insert.
Qed.

Lemma block_or_null (a a' : ArrayPtr.t T) capacity :
  std.slots a' = std.slots a →
  std.slots a = capacity ∨ a = ArrayPtr.null →
  std.slots a' = capacity ∨ a' = ArrayPtr.null.
Proof.
  intros Hlen [Hb| ->]; [left; lia|right].
  unfold std.slots in Hlen. simpl in Hlen.
  apply nil_length_inv. lia.
Qed.

Lemma inv_mk (a : ArrayPtr.t T) size capacity :
  size ≤ std.slots a → std.slots a ≤ max_slots → size ≤ capacity →
  std.slots a = capacity ∨ a = ArrayPtr.null →
  inv (SimpleVector.mk a size capacity).
Proof. by unfold inv. Qed.

Lemma inv_default : inv (@SimpleVector.default T).
Proof. apply inv_mk; unfold std.slots; simpl; (lia || by right). Qed.

Lemma inv_from_reserve p : inv (@SimpleVector.from_reserve T p).
Proof. apply inv_mk; unfold std.slots; simpl; (lia || by right). Qed.

Lemma inv_from_size size v : SimpleVector.from_size size = Ok v → inv v.
Proof.
  unfold SimpleVector.from_size.
  intros (a & [Ha Hm]%new_inv & (a' & [Ha' _]%generate_inv & [= <-])%bind_Ok)%bind_Ok.
  apply inv_mk; (lia || left; lia).
Qed.

Lemma inv_from_value size value v : SimpleVector.from_value size value = Ok v → inv v.
Proof.
  unfold SimpleVector.from_value.
  intros (a & [Ha Hm]%new_inv & (a' & [Ha' _]%fill_inv & [= <-])%bind_Ok)%bind_Ok.
  apply inv_mk; (lia || left; lia).
Qed.

Lemma inv_from_list init v : SimpleVector.from_list init = Ok v → inv v.
Proof.
  unfold SimpleVector.from_list.
  intros (a & [Ha Hm]%new_inv & (a' & (Ha' & _)%copy_inv & [= <-])%bind_Ok)%bind_Ok.
  apply inv_mk; (lia || left; lia).
Qed.

Lemma inv_copy_construct other v : SimpleVector.copy_construct other = Ok v → inv v.
Proof.
  unfold SimpleVector.copy_construct.
  intros (copy & Hcopy%inv_from_size & (a' & (Ha' & _)%copy_inv & [= <-])%bind_Ok)%bind_Ok.
  destruct Hcopy as (Hs & Hm & Hc & Hb). simpl.
  apply inv_mk; try lia. by eapply block_or_null.
Qed.

Lemma inv_move_construct other v other' :
  inv other → SimpleVector.move_construct other = Ok (v, other') →
  inv v ∧ inv other'.
Proof.
  intros (Hs & Hm & Hc & Hb) [= <- <-]. split.
  - by apply inv_mk.
  - apply inv_mk; unfold std.slots; simpl; (lia || by right).
Qed.

Lemma inv_copy_assign this rhs v : SimpleVector.copy_assign this rhs = Ok v → inv v.
Proof.
  unfold SimpleVector.copy_assign.
  intros (copy & Hcopy%inv_copy_construct & [= <-])%bind_Ok.
  destruct Hcopy as (Hs & Hm & Hc & Hb). by apply inv_mk.
Qed.

Lemma inv_move_assign this rhs v rhs' :
  inv rhs → SimpleVector.move_assign this rhs = Ok (v, rhs') → inv v ∧ inv rhs'.
Proof.
  intros (Hs & Hm & Hc & Hb) [= <- <-]. split.
  - by apply inv_mk.
  - apply inv_mk; unfold std.slots; simpl; (lia || by right).
Qed.

Lemma inv_swap this other :
  inv this → inv other →
  inv (fst (SimpleVector.swap this other)) ∧ inv (snd (SimpleVector.swap this other)).
Proof.
  intros (Hs & Hm & Hc & Hb) (Hs' & Hm' & Hc' & Hb'). split; by apply inv_mk.
Qed.

Lemma inv_subscript_assign index x this v :
  inv this → after (SimpleVector.subscript_assign index x this) v → inv v.
Proof.
  intros Hinv [(a & [Ha Hi]%set_inv & ->)|[_ ->]]%after_eval; [|done].
  destruct Hinv as (Hs & Hm & Hc & Hb).
  apply inv_mk; try lia. by eapply block_or_null.
Qed.

Lemma inv_Clear this v : inv this → after (SimpleVector.Clear this) v → inv v.
Proof.
  intros (Hs & Hm & Hc & Hb) ->. apply inv_mk; (lia || done).
Qed.

Lemma inv_Resize new_size this v :
  inv this → after (SimpleVector.Resize new_size this) v → inv v.
Proof.
  intros Hinv. pose proof Hinv as (Hs & Hm & Hc & Hb).
  destruct (N.lt_trichotomy new_size (SimpleVector.size_ this)) as [Hlt|[->|Hgt]].
  - rewrite Resize_shrink by done. intros ->. apply inv_mk; (lia || done).
  - rewrite Resize_same by done. by intros ->.
  - destruct (N.le_gt_cases new_size (SimpleVector.capacity_ this)) as [Hin|Hout].
    + destruct (N.le_gt_cases new_size (std.slots (SimpleVector.array_ this)))
        as [Hblock|Hnone].
      * rewrite Resize_in_place by done. intros ->.
        unfold std.slots in *.
        apply inv_mk; unfold std.slots; rewrite ?generate_loop_length; try lia.
        left. destruct Hb as [Hb|Hb]; [lia|].
        rewrite Hb in *. simpl in *. lia.
      * rewrite Resize_no_block by done. done.
    + pose proof (std_max_spec new_size (size_t_mul (SimpleVector.size_ this) 2)) as Hmax.
      destruct (N.le_gt_cases
                  (std.max new_size (size_t_mul (SimpleVector.size_ this) 2)) max_slots)
        as [Hfit|Hbig].
      * rewrite Resize_realloc by done. intros ->.
        apply inv_mk; unfold std.slots;
          rewrite ?generate_loop_length, ?copy_loop_length, ?length_replicate;
          lia.
      * rewrite Resize_bad_alloc by done. by intros ->.
Qed.

Lemma inv_PushBack item this v :
  inv this → after (SimpleVector.PushBack item this) v → inv v.
Proof.
  intros Hinv [(r & v1 & Hres & Hset)|(e & Hres)]%after_and_then.
  - assert (inv v1) as Hinv1 by (eapply inv_Resize; [done|by rewrite Hres]).
    apply after_eval in Hset as [(a & [Ha Hi]%set_inv & ->)|[_ ->]]; [|done].
    destruct Hinv1 as (Hs & Hm & Hc & Hb).
    apply inv_mk; try lia. by eapply block_or_null.
  - eapply inv_Resize; [done|by rewrite Hres].
Qed.

Lemma inv_Insert index value this v :
  inv this → after (SimpleVector.Insert index value this) v → inv v.
Proof.
  intros Hinv [(r & v1 & Hres & Hset)|(e & Hres)]%after_and_then.
  - assert (inv v1) as Hinv1 by (eapply inv_Resize; [done|by rewrite Hres]).
    apply after_eval in Hset
      as [(a & (a2 & Ha2%copy_backward_inv & [Ha Hi]%set_inv)%bind_Ok & ->)|[_ ->]];
      [|done].
    destruct Hinv1 as (Hs & Hm & Hc & Hb).
    apply inv_mk; try lia. eapply block_or_null; [|done]. lia.
  - eapply inv_Resize; [done|by rewrite Hres].
Qed.

Lemma inv_PopBack this v : inv this → after (SimpleVector.PopBack this) v → inv v.
Proof.
  intros (Hs & Hm & Hc & Hb). unfold SimpleVector.PopBack, SimpleVector.IsEmpty.
  destruct (N.eqb_spec (SimpleVector.size_ this) 0) as [Hz|Hnz]; intros ->.
  - by apply inv_mk.
  - pose proof (size_t_sub_1_le _ Hnz). apply inv_mk; (lia || done).
Qed.

Lemma inv_Erase index this v :
  inv this → after (SimpleVector.Erase index this) v → inv v.
Proof.
  intros (Hs & Hm & Hc & Hb). unfold SimpleVector.Erase, SimpleVector.begin, SimpleVector.end_.
  case_match; [|done]. bools.
  intros [(a & Ha%copy_within_inv & ->)|[_ ->]]%after_eval; [|by apply inv_mk].
  pose proof (size_t_sub_1_le (SimpleVector.size_ this) ltac:(lia)).
  apply inv_mk; try lia. by eapply block_or_null.
Qed.

Lemma inv_Reserve new_capacity this v :
  inv this → after (SimpleVector.Reserve new_capacity this) v → inv v.
Proof.
  intros Hinv. pose proof Hinv as (Hs & Hm & Hc & Hb). unfold SimpleVector.Reserve.
  case_match; [|by intros ->]. bools.
  intros [(a & (a1 & [Ha1 Hfit]%new_inv & (Ha & _)%copy_inv)%bind_Ok & ->)|[_ ->]]%after_eval;
    [|done].
  simpl. unfold SimpleVector.begin, SimpleVector.end_ in *.
  apply inv_mk; lia.
Qed.

Lemma reachable_inv v : reachable v → inv v.
Proof.
  induction 1 as
    [ | size v Hctor | p | size value v Hctor | init v Hctor
    | other v _ _ Hctor
    | other v other' _ IH Hmove | other v other' _ IH Hmove
    | this rhs v _ _ _ _ Hassign
    | this v _ IH Hassign
    | this rhs v rhs' _ _ _ IH Hmove | this rhs v rhs' _ _ _ IH Hmove
    | this v _ IH Hassign
    | this other _ IH1 _ IH2 | this other _ IH1 _ IH2
    | index x this v _ IH Hcall
    | this v _ IH Hcall
    | new_size this v _ IH Hcall
    | item this v _ IH Hcall
    | index value this v _ IH Hcall
    | this v _ IH Hcall
    | index this v _ IH Hcall
    | new_capacity this v _ IH Hcall ].
  - apply inv_default.
  - by eapply inv_from_size.
  - apply inv_from_reserve.
  - by eapply inv_from_value.
  - by eapply inv_from_list.
  - by eapply inv_copy_construct.
  - by destruct (inv_move_construct _ _ _ IH Hmove).
  - by destruct (inv_move_construct _ _ _ IH Hmove).
  - by eapply inv_copy_assign.
  - unfold SimpleVector.copy_assign_self in Hassign. by simplify_eq.
  - by destruct (inv_move_assign _ _ _ _ IH Hmove).
  - by destruct (inv_move_assign _ _ _ _ IH Hmove).
  - unfold SimpleVector.move_assign_self in Hassign. by simplify_eq.
  - by apply inv_swap.
  - by apply inv_swap.
  - exact (inv_subscript_assign _ _ _ _ IH Hcall).
  - exact (inv_Clear _ _ IH Hcall).
  - exact (inv_Resize _ _ _ IH Hcall).
  - exact (inv_PushBack _ _ _ IH Hcall).
  - exact (inv_Insert _ _ _ _ IH Hcall).
  - exact (inv_PopBack _ _ IH Hcall).
  - exact (inv_Erase _ _ _ IH Hcall).
  - exact (inv_Reserve _ _ _ IH Hcall).
Qed.
End invariant.

(** ** The comparison operators *)

Section comparisons.
Context {T : Type} `{!Default T} `{!Heap} `{!Less T}.
Implicit Types a b : SimpleVector.t T.

Lemma lex_lt_irrefl (l1 : list T) : (∀ x : T, less x x = false) → ¬ lex_lt l1 l1.
Proof.
  intros Hirr. induction l1 as [|x l1 IH]; inversion 1; subst; [|done].
  by rewrite Hirr in *.
Qed.

Lemma lexicographical_compare_lex_lt (l1 l2 : list T) :
  comparable T →
  std.lexicographical_compare less l1 l2 = true ↔ lex_lt l1 l2.
Proof.
  intros [Hirr Htri]. revert l2.
  induction l1 as [|x l1 IH]; intros [|y l2]; simpl.
  - split; [done|inversion 1].
  - split; [constructor|done].
  - split; [done|inversion 1].
  - destruct (less x y) eqn:Hxy.
    { split; [by constructor|done]. }
    destruct (less y x) eqn:Hyx.
    { split; [done|]. inversion 1; subst; congruence. }
    assert (x = y) as <- by by apply Htri.
    rewrite IH. split; [by constructor|].
    inversion 1; subst; [congruence|done].
Qed.

Lemma lex_lt_neither_eq (l1 l2 : list T) :
  comparable T →
  ¬ lex_lt l1 l2 ∧ ¬ lex_lt l2 l1 ↔ l1 = l2.
Proof.
  intros [Hirr Htri]. split.
  - revert l2. induction l1 as [|x l1 IH]; intros [|y l2] [H12 H21].
    + done.
    + destruct H12. constructor.
    + destruct H21. constructor.
    + destruct (less x y) eqn:Hxy; [destruct H12; by constructor|].
      destruct (less y x) eqn:Hyx; [destruct H21; by constructor|].
      assert (x = y) as <- by by apply Htri.
      f_equal. apply IH. split; intros ?; [apply H12|apply H21]; by constructor.
  - intros <-. split; by apply lex_lt_irrefl.
Qed.

Lemma range_elements a :
  inv a →
  std.range (SimpleVector.array_ a) (SimpleVector.begin a) (SimpleVector.end_ a)
  = Ok (SimpleVector.elements a).
Proof.
  intros (Hs & _). unfold std.range, std.valid_range, SimpleVector.begin,
    SimpleVector.end_, SimpleVector.elements.
  branch. by rewrite N.sub_0_r.
Qed.

Lemma lt_Ok a b :
  inv a → inv b →
  SimpleVector.lt a b
  = Ok (std.lexicographical_compare less (SimpleVector.elements a) (SimpleVector.elements b)).
Proof.
  intros Ha Hb. unfold SimpleVector.lt. by rewrite !range_elements.
Qed.

Lemma comparisons a b :
  comparable T → inv a → inv b →
  ∃ l g : bool,
    SimpleVector.lt a b = Ok l
    ∧ (l = true ↔ lex_lt (SimpleVector.elements a) (SimpleVector.elements b))
    ∧ SimpleVector.gt a b = Ok g
    ∧ (g = true ↔ lex_lt (SimpleVector.elements b) (SimpleVector.elements a))
    ∧ SimpleVector.eq a b = Ok (negb g && negb l)
    ∧ (negb g && negb l = true
       ↔ ¬ lex_lt (SimpleVector.elements a) (SimpleVector.elements b)
         ∧ ¬ lex_lt (SimpleVector.elements b) (SimpleVector.elements a))
    ∧ (negb g && negb l = true ↔ SimpleVector.elements a = SimpleVector.elements b)
    ∧ SimpleVector.ne a b = Ok (negb (negb g && negb l))
    ∧ SimpleVector.le a b = Ok (negb g)
    ∧ SimpleVector.ge a b = Ok (negb l).
Proof.
  intros Hcmp Ha Hb.
  pose proof (lexicographical_compare_lex_lt (SimpleVector.elements a)
                (SimpleVector.elements b) Hcmp) as Hl.
  pose proof (lexicographical_compare_lex_lt (SimpleVector.elements b)
                (SimpleVector.elements a) Hcmp) as Hg.
  pose proof (lex_lt_neither_eq (SimpleVector.elements a)
                (SimpleVector.elements b) Hcmp) as Heq.
  set (l := std.lexicographical_compare less (SimpleVector.elements a)
              (SimpleVector.elements b)) in *.
  set (g := std.lexicographical_compare less (SimpleVector.elements b)
              (SimpleVector.elements a)) in *.
  assert (negb g && negb l = true
          ↔ ¬ lex_lt (SimpleVector.elements a) (SimpleVector.elements b)
            ∧ ¬ lex_lt (SimpleVector.elements b) (SimpleVector.elements a)) as Hneither.
  { rewrite <- Hl, <- Hg. destruct g, l; simpl; split; try done.
    all: intros [H1 H2]; by (destruct H1 || destruct H2). }
  exists l, g.
  unfold SimpleVector.ne, SimpleVector.le, SimpleVector.ge, SimpleVector.eq,
    SimpleVector.gt.
  rewrite !lt_Ok by done. fold l g. simpl.
  split_and!; try done.
  - by destruct g, l.
  - by rewrite Hneither.
  - by destruct g, l.
Qed.
End comparisons.

(** ** The size never exceeds the capacity *)

Section reachability.
Context {T : Type} `{!Default T} `{!Heap}.

(** C9. In every state a vector can reach, by whichever constructor and
    whichever sequence of [Clear], [Resize], [PushBack], [Insert],
    [PopBack], [Erase], [Reserve], [swap], copies and moves,
    [GetSize() <= GetCapacity()]. *)
Theorem size_le_capacity (v : SimpleVector.t T) :
  reachable v → SimpleVector.GetSize v ≤ SimpleVector.GetCapacity v.
Proof. by intros (_ & _ & Hc & _)%reachable_inv. Qed.
End reachability.

(** ** Vectors whose capacity has no block behind it *)

Section no_block.
Context {T : Type} `{!Default T} `{!Heap}.

Lemma Resize_one_without_block capacity :
  SimpleVector.Resize 1 (SimpleVector.mk (@ArrayPtr.null T) 0 (capacity + 1))
  = SimpleVector.Fault.
Proof. apply Resize_no_block; unfold std.slots; simpl; lia. Qed.

Lemma PushBack_without_block capacity item :
  SimpleVector.PushBack item (SimpleVector.mk (@ArrayPtr.null T) 0 (capacity + 1))
  = SimpleVector.Fault.
Proof.
  unfold SimpleVector.PushBack. simpl SimpleVector.size_.
  change (size_t_add 0 1) with 1. by rewrite Resize_one_without_block.
Qed.

Lemma Insert_without_block capacity value :
  SimpleVector.Insert 0 value (SimpleVector.mk (@ArrayPtr.null T) 0 (capacity + 1))
  = SimpleVector.Fault.
Proof.
  unfold SimpleVector.Insert. simpl SimpleVector.size_.
  change (size_t_add 0 1) with 1. by rewrite Resize_one_without_block.
Qed.

(** C1. What the move constructor and move assignment do with a source of
    capacity [c + 1]: the target takes over block, size and capacity of the
    source, and the source is left with no block and size [0] but with the
    capacity it had.  The source reports [GetCapacity() == c + 1], not [0],
    and a later [PushBack] on it faults. *)
Theorem move_keeps_source_capacity (block : ArrayPtr.t T) (s c : N) (item : T) :
  let a := SimpleVector.mk block s (c + 1) in
  let source := SimpleVector.mk ArrayPtr.null 0 (c + 1) in
  SimpleVector.move_construct a = Ok (a, source)
  ∧ (∀ this, SimpleVector.move_assign this a = Ok (a, source))
  ∧ SimpleVector.GetSize source = 0
  ∧ SimpleVector.GetCapacity source = c + 1
  ∧ SimpleVector.GetCapacity source ≠ 0
  ∧ SimpleVector.PushBack item source = SimpleVector.Fault.
Proof.
  simpl. split_and!; try done.
  - unfold SimpleVector.GetCapacity. simpl. lia.
  - apply PushBack_without_block.
Qed.

(** C2. What the constructor from a reserve hint [h + 1] does: size [0],
    capacity [h + 1], and no block at all.  The vector owns [0] slots, not
    [h + 1], and [PushBack] on it faults; the constructor from a size, when
    it returns, has allocated a block of the size asked for. *)
Theorem reserve_constructor_allocates_nothing (h : N) (item : T) :
  let v := @SimpleVector.from_reserve T (Reserve (h + 1)) in
  SimpleVector.GetSize v = 0
  ∧ SimpleVector.GetCapacity v = h + 1
  ∧ SimpleVector.array_ v = ArrayPtr.null
  ∧ std.slots (SimpleVector.array_ v) ≠ h + 1
  ∧ SimpleVector.PushBack item v = SimpleVector.Fault
  ∧ match SimpleVector.from_size (h + 1) with
    | Ok w => std.slots (SimpleVector.array_ w) = h + 1
    | _ => True
    end.
Proof.
  simpl. split_and!; try done.
  - unfold std.slots. simpl. lia.
  - apply PushBack_without_block.
  - destruct (SimpleVector.from_size (h + 1)) as [w| |] eqn:Hw; [|done|done].
    revert Hw. unfold SimpleVector.from_size.
    intros (a & [Ha _]%new_inv & (a' & [Ha' _]%generate_inv & [= <-])%bind_Ok)%bind_Ok.
    simpl. lia.
Qed.

(** C6. [Insert] at [begin()] of a vector built from a reserve hint
    [h + 1], or of a moved-from vector that had capacity [c + 1], faults:
    [Resize] takes the branch that writes in place, and there is no block
    to write to.  (For vectors whose block has [capacity_] slots,
    [Insert_then_Erase] proves the shift, the returned position and the
    round trip through [Erase].) *)
Theorem Insert_faults_without_block (h c s : N) (block : ArrayPtr.t T) (value : T) :
  SimpleVector.Insert 0 value (@SimpleVector.from_reserve T (Reserve (h + 1)))
  = SimpleVector.Fault
  ∧ match SimpleVector.move_construct (SimpleVector.mk block s (c + 1)) with
    | Ok (_, source) => SimpleVector.Insert 0 value source = SimpleVector.Fault
    | _ => False
    end.
Proof. split; apply Insert_without_block. Qed.
End no_block.

(** ** The comparison operators, and the properties at concrete vectors *)

Section examples.
#[local] Existing Instance N_Default.
#[local] Existing Instance N_Less.
#[local] Existing Instance heap_1000.

(** C7. For vectors of a comparable element type, [operator<] returns
    whether the elements of the left vector come lexicographically before
    those of the right one, [operator>] is [operator<] with the sides
    exchanged, [operator==] returns whether neither side comes before the
    other, which is whether the element sequences are equal, whatever the
    capacities, and [!=], [<=], [>=] are the negations of [==], [>], [<].
    In particular [{1,2,3} < {1,2,4}], [{1,2} < {1,2,3}],
    [{1,2,3} == {1,2,3}] and [{2} > {1,9,9}]. *)
Theorem comparison_operators :
  (∀ (T : Type) (heap : Heap) (less_T : Less T) (a b : SimpleVector.t T),
     comparable T → inv a → inv b →
     ∃ l g : bool,
       SimpleVector.lt a b = Ok l
       ∧ (l = true ↔ lex_lt (SimpleVector.elements a) (SimpleVector.elements b))
       ∧ SimpleVector.gt a b = Ok g
       ∧ (g = true ↔ lex_lt (SimpleVector.elements b) (SimpleVector.elements a))
       ∧ SimpleVector.eq a b = Ok (negb g && negb l)
       ∧ (negb g && negb l = true
          ↔ ¬ lex_lt (SimpleVector.elements a) (SimpleVector.elements b)
            ∧ ¬ lex_lt (SimpleVector.elements b) (SimpleVector.elements a))
       ∧ (negb g && negb l = true
          ↔ SimpleVector.elements a = SimpleVector.elements b)
       ∧ SimpleVector.ne a b = Ok (negb (negb g && negb l))
       ∧ SimpleVector.le a b = Ok (negb g)
       ∧ SimpleVector.ge a b = Ok (negb l))
  ∧ (a ← SimpleVector.from_list [1; 2; 3]; b ← SimpleVector.from_list [1; 2; 4];
     SimpleVector.lt a b) = Ok true
  ∧ (a ← SimpleVector.from_list [1; 2]; b ← SimpleVector.from_list [1; 2; 3];
     SimpleVector.lt a b) = Ok true
  ∧ (a ← SimpleVector.from_list [1; 2; 3]; b ← SimpleVector.from_list [1; 2; 3];
     SimpleVector.eq a b) = Ok true
  ∧ (a ← SimpleVector.from_list [2]; b ← SimpleVector.from_list [1; 9; 9];
     SimpleVector.gt a b) = Ok true.
Proof.
  split_and!; try reflexivity.
  intros T heap less_T a b. apply comparisons.
Qed.

(** The invariant at a concrete vector, by evaluation. *)
Ltac inv_by_evaluation :=
  unfold inv; simpl; split_and!; [by vm_compute..|by left].

Lemma Resize_beyond_capacity_witness :
  ∃ v',
    SimpleVector.Resize 10 v123 = SimpleVector.Return tt v'
    ∧ SimpleVector.GetCapacity v' = N.max 10 (SimpleVector.size_ v123 * 2)
    ∧ SimpleVector.GetSize v' = 10
    ∧ std.slots (SimpleVector.array_ v') = SimpleVector.GetCapacity v'
    ∧ SimpleVector.elements v'
      = SimpleVector.elements v123
        ++ replicate (N.to_nat (10 - SimpleVector.size_ v123)) value_init.
Proof.
  apply (Resize_beyond_capacity 10 v123);
    [by vm_compute|inv_by_evaluation|by vm_compute|by vm_compute].
Defined.

Lemma Resize_shrink_then_regrow_witness :
  let shrunk := SimpleVector.mk (SimpleVector.array_ v10_20_30_spare) 1
                  (SimpleVector.capacity_ v10_20_30_spare) in
  SimpleVector.Resize 1 v10_20_30_spare = SimpleVector.Return tt shrunk
  ∧ ∀ target,
      1 ≤ target →
      target ≤ SimpleVector.capacity_ v10_20_30_spare →
      ∃ v',
        SimpleVector.Resize target shrunk = SimpleVector.Return tt v'
        ∧ SimpleVector.GetSize v' = target
        ∧ SimpleVector.GetCapacity v' = SimpleVector.GetCapacity v10_20_30_spare
        ∧ SimpleVector.array_ v'
          = take (N.to_nat 1) (SimpleVector.array_ v10_20_30_spare)
            ++ replicate (N.to_nat (target - 1)) value_init
            ++ drop (N.to_nat target) (SimpleVector.array_ v10_20_30_spare)
        ∧ SimpleVector.elements v'
          = take (N.to_nat 1) (SimpleVector.elements v10_20_30_spare)
            ++ replicate (N.to_nat (target - 1)) value_init.
Proof.
  apply (Resize_shrink_then_regrow 1 v10_20_30_spare);
    [inv_by_evaluation|by vm_compute].
Defined.

Lemma At_checked_witness :
  (SimpleVector.size_ v123 ≤ 5 →
   SimpleVector.At 5 v123 = SimpleVector.Raise out_of_range v123)
  ∧ (5 < SimpleVector.size_ v123 →
     ∃ x, SimpleVector.elements v123 !! N.to_nat 5 = Some x
          ∧ SimpleVector.At 5 v123 = SimpleVector.Return x v123)
  ∧ ((∃ e v', SimpleVector.At 5 v123 = SimpleVector.Raise e v')
     ↔ SimpleVector.size_ v123 ≤ 5).
Proof. apply (At_checked 5 v123). inv_by_evaluation. Defined.

Lemma PopBack_total_witness :
  ∃ v',
    SimpleVector.PopBack v123 = SimpleVector.Return tt v'
    ∧ SimpleVector.GetCapacity v' = SimpleVector.GetCapacity v123
    ∧ SimpleVector.array_ v' = SimpleVector.array_ v123
    ∧ (SimpleVector.size_ v123 = 0 → v' = v123)
    ∧ (SimpleVector.size_ v123 ≠ 0 →
       SimpleVector.GetSize v' = SimpleVector.size_ v123 - 1
       ∧ SimpleVector.elements v'
         = take (N.to_nat (SimpleVector.size_ v123 - 1)) (SimpleVector.elements v123)).
Proof. apply (PopBack_total v123). by vm_compute. Defined.

Lemma copy_capacity_is_size_witness :
  ∃ b,
    SimpleVector.copy_construct v10_20_30_spare = Ok b
    ∧ (∀ this, SimpleVector.copy_assign this v10_20_30_spare = Ok b)
    ∧ SimpleVector.GetSize b = SimpleVector.GetSize v10_20_30_spare
    ∧ SimpleVector.elements b = SimpleVector.elements v10_20_30_spare
    ∧ SimpleVector.GetCapacity b = SimpleVector.GetSize v10_20_30_spare
    ∧ (SimpleVector.GetSize v10_20_30_spare < SimpleVector.GetCapacity v10_20_30_spare →
       SimpleVector.GetCapacity b ≠ SimpleVector.GetCapacity v10_20_30_spare).
Proof. apply (copy_capacity_is_size v10_20_30_spare). inv_by_evaluation. Defined.

Lemma size_le_capacity_witness :
  SimpleVector.GetSize v7 ≤ SimpleVector.GetCapacity v7.
Proof.
  apply (size_le_capacity v7).
  apply (reach_PushBack 7 SimpleVector.default v7 reach_default).
  reflexivity.
Defined.

Lemma comparison_operators_witness :
  ∃ l g : bool,
    SimpleVector.lt v123 v124 = Ok l
    ∧ (l = true ↔ lex_lt (SimpleVector.elements v123) (SimpleVector.elements v124))
    ∧ SimpleVector.gt v123 v124 = Ok g
    ∧ (g = true ↔ lex_lt (SimpleVector.elements v124) (SimpleVector.elements v123))
    ∧ SimpleVector.eq v123 v124 = Ok (negb g && negb l)
    ∧ (negb g && negb l = true
       ↔ ¬ lex_lt (SimpleVector.elements v123) (SimpleVector.elements v124)
         ∧ ¬ lex_lt (SimpleVector.elements v124) (SimpleVector.elements v123))
    ∧ (negb g && negb l = true
       ↔ SimpleVector.elements v123 = SimpleVector.elements v124)
    ∧ SimpleVector.ne v123 v124 = Ok (negb (negb g && negb l))
    ∧ SimpleVector.le v123 v124 = Ok (negb g)
    ∧ SimpleVector.ge v123 v124 = Ok (negb l).
Proof.
  apply (proj1 comparison_operators N heap_1000 N_Less v123 v124).
  - split.
    + intros x. apply N.ltb_irrefl.
    + intros x y Hxy%N.ltb_ge Hyx%N.ltb_ge. lia.
  - inv_by_evaluation.
  - inv_by_evaluation.
Defined.
End examples.

(** * Further properties of the code *)

(** ** The constructors *)

Section whole_blocks.
Context {T : Type}.
Local Open Scope nat_scope.

Lemma generate_loop_whole (n : nat) (gen : unit → T) (a : list T) :
  length a = n → std.generate_loop n 0 gen a = replicate n (gen tt).
Proof.
  intros Hlen. rewrite generate_loop_closed by lia. simpl.
  rewrite drop_ge by lia. by rewrite app_nil_r.
Qed.

Lemma copy_loop_whole (src dst : list T) :
  length dst = length src → std.copy_loop (length src) src 0 0 dst = src.
Proof.
  intros Hlen. rewrite copy_loop_closed by lia. simpl.
  rewrite drop_0, firstn_all, drop_ge by lia. by rewrite app_nil_r.
Qed.
End whole_blocks.

Section constructors.
Context {T : Type} `{!Default T} `{!Heap}.

(** X1. [SimpleVector(size)] returns a vector of [size] default values
    whose capacity is [size], when the heap grants [size] slots, and throws
    [std::bad_alloc] otherwise. *)
Theorem from_size_all_default (size : N) :
  SimpleVector.from_size size
  = if size <=? max_slots
    then Ok (SimpleVector.mk (replicate (N.to_nat size) value_init) size size)
    else Throw bad_alloc.
Proof.
  destruct (N.leb_spec size max_slots) as [Hfit|Hbig].
  - rewrite from_size_Ok by done.
    by rewrite generate_loop_whole by apply length_replicate.
  - unfold SimpleVector.from_size. by rewrite new_bad_alloc.
Qed.

(** X2. [SimpleVector(size, value)] returns a vector of [size] copies of
    [value] whose capacity is [size], when the heap grants [size] slots,
    and throws [std::bad_alloc] otherwise. *)
Theorem from_value_all_value (size : N) (value : T) :
  SimpleVector.from_value size value
  = if size <=? max_slots
    then Ok (SimpleVector.mk (replicate (N.to_nat size) value) size size)
    else Throw bad_alloc.
Proof.
  destruct (N.leb_spec size max_slots) as [Hfit|Hbig].
  - unfold SimpleVector.from_value, std.fill, std.valid_range.
    rewrite new_Ok_replicate by done. simpl.
    rewrite slots_replicate. branch.
    rewrite N.sub_0_r, fill_loop_generate.
    by rewrite generate_loop_whole by apply length_replicate.
  - unfold SimpleVector.from_value. by rewrite new_bad_alloc.
Qed.

(** X3. [SimpleVector(std::initializer_list)] returns a vector holding the
    listed values in order, with size and capacity equal to their number,
    when the heap grants that many slots, and throws [std::bad_alloc]
    otherwise. *)
Theorem from_list_holds_list (init : list T) :
  SimpleVector.from_list init
  = if std.slots init <=? max_slots
    then Ok (SimpleVector.mk init (std.slots init) (std.slots init))
    else Throw bad_alloc.
Proof.
  destruct (N.leb_spec (std.slots init) max_slots) as [Hfit|Hbig].
  - unfold SimpleVector.from_list.
    rewrite new_Ok_replicate by done. simpl.
    rewrite copy_Ok by (rewrite ?slots_replicate; lia). simpl.
    rewrite N.sub_0_r. unfold std.slots. rewrite Nat2N.id.
    by rewrite copy_loop_whole by apply length_replicate.
  - unfold SimpleVector.from_list. by rewrite new_bad_alloc.
Qed.
End constructors.

(** ** [Resize], [PushBack], [PopBack] and [Clear] on vectors whose block has [capacity_] slots *)

Section appended_slots.
Context {T : Type}.
Local Open Scope nat_scope.

Lemma take_generated (a : list T) (s n : nat) (gen : unit → T) :
  s ≤ n → n ≤ length a →
  take n (std.generate_loop (n - s) s gen a)
  = take s a ++ replicate (n - s) (gen tt).
Proof.
  intros. rewrite generate_loop_closed by lia.
  rewrite app_assoc. apply take_app_length'.
  rewrite length_app, length_take_le, length_replicate by lia. lia.
Qed.

End appended_slots.

Section growing.
Context {T : Type} `{!Default T} `{!Heap}.
Implicit Types v : SimpleVector.t T.

(** [Resize] on a vector whose block has [capacity_] slots, at the level of
    the block. *)
Lemma Resize_wf new_size v :
  max_slots ≤ PTRDIFF_MAX →
  wf v →
  (SimpleVector.capacity_ v < new_size →
   N.max new_size (SimpleVector.size_ v * 2) ≤ max_slots) →
  ∃ a1,
    let c1 := if new_size <=? SimpleVector.capacity_ v
              then SimpleVector.capacity_ v
              else N.max new_size (SimpleVector.size_ v * 2) in
    SimpleVector.Resize new_size v
    = SimpleVector.Return tt (SimpleVector.mk a1 new_size c1)
    ∧ std.slots a1 = c1
    ∧ c1 ≤ max_slots
    ∧ new_size ≤ c1
    ∧ take (N.to_nat new_size) a1
      = take (N.to_nat new_size) (SimpleVector.elements v)
        ++ replicate (N.to_nat (new_size - SimpleVector.size_ v)) value_init.
Proof.
  intros Hheap (Hc & Hb & Hm) Halloc.
  unfold SimpleVector.elements, std.slots in *.
  destruct (N.leb_spec new_size (SimpleVector.capacity_ v)) as [Hin|Hout].
  - destruct (N.lt_trichotomy new_size (SimpleVector.size_ v)) as [Hlt|[->|Hgt]].
    + exists (SimpleVector.array_ v). split; [by apply Resize_shrink|].
      split_and!; try lia.
      replace (N.to_nat (new_size - SimpleVector.size_ v)) with O by lia.
      by rewrite app_nil_r, take_take, Nat.min_l by lia.
    + exists (SimpleVector.array_ v). split.
      { rewrite Resize_same by done. by destruct v. }
      split_and!; try lia.
      rewrite N.sub_diag. simpl. by rewrite app_nil_r, take_take, Nat.min_id.
    + eexists. split; [apply Resize_in_place; unfold std.slots; lia|].
      rewrite generate_loop_length. split_and!; try lia.
      rewrite N2Nat.inj_sub, take_generated by lia.
      by rewrite take_take, Nat.min_r by lia.
  - specialize (Halloc Hout).
    assert (size_t_mul (SimpleVector.size_ v) 2 = SimpleVector.size_ v * 2) as Hmul
      by (apply size_t_mul_2; lia).
    pose proof (std_max_spec new_size (SimpleVector.size_ v * 2)) as Hmax.
    eexists. split.
    { rewrite Resize_realloc by (unfold std.slots; rewrite ?Hmul; lia).
      by rewrite Hmul, Hmax. }
    rewrite generate_loop_length, copy_loop_length, length_replicate.
    split_and!; try lia.
    rewrite N2Nat.inj_sub, take_generated
      by (rewrite ?copy_loop_length, ?length_replicate; lia).
    rewrite take_copy_loop by (rewrite ?length_replicate; lia).
    by rewrite take_take, Nat.min_r by lia.
Qed.

(** X4. [Resize(new_size)] on a vector whose block has [capacity_] slots,
    with the heap granting the block a growth beyond the capacity asks for:
    the result has size [new_size], its elements are the first [new_size]
    old elements followed by default values up to [new_size], and the
    capacity is unchanged when [new_size] fits it and [max(new_size, 2 * size)]
    otherwise. *)
Theorem Resize_truncates_or_pads new_size v :
  max_slots ≤ PTRDIFF_MAX →
  wf v →
  (SimpleVector.capacity_ v < new_size →
   N.max new_size (SimpleVector.size_ v * 2) ≤ max_slots) →
  ∃ v',
    SimpleVector.Resize new_size v = SimpleVector.Return tt v'
    ∧ wf v'
    ∧ SimpleVector.GetSize v' = new_size
    ∧ SimpleVector.GetCapacity v'
      = (if new_size <=? SimpleVector.capacity_ v
         then SimpleVector.capacity_ v
         else N.max new_size (SimpleVector.size_ v * 2))
    ∧ SimpleVector.elements v'
      = take (N.to_nat new_size) (SimpleVector.elements v)
        ++ replicate (N.to_nat (new_size - SimpleVector.size_ v)) value_init.
Proof.
  intros Hheap Hwf Halloc.
  destruct (Resize_wf new_size v Hheap Hwf Halloc)
    as (a1 & Hres & Hslots & Hfit & Hroom & Htake).
  eexists. split; [exact Hres|]. by split_and!.
Qed.


End growing.

(** ** Sequences of calls *)

Section sequences.
Context {T : Type} `{!Default T} `{!Heap}.
Implicit Types v : SimpleVector.t T.




End sequences.

(** ** [Reserve], [Erase] and [Insert] *)

Section positions.
Context {T : Type} `{!Default T} `{!Heap}.
Implicit Types v : SimpleVector.t T.

(** X9. [Reserve(new_capacity)] in a reachable state: a request within the
    capacity changes nothing; a larger one that the heap grants moves the
    elements to a block of exactly [new_capacity] slots, keeping size and
    elements, and asking again for the same capacity changes nothing more;
    a larger one that the heap refuses throws [std::bad_alloc] and leaves
    the vector as it was. *)
Theorem Reserve_sets_capacity new_capacity v :
  inv v →
  (new_capacity ≤ SimpleVector.capacity_ v →
   SimpleVector.Reserve new_capacity v = SimpleVector.Return tt v)
  ∧ (SimpleVector.capacity_ v < new_capacity → new_capacity ≤ max_slots →
     ∃ v',
       SimpleVector.Reserve new_capacity v = SimpleVector.Return tt v'
       ∧ SimpleVector.GetCapacity v' = new_capacity
       ∧ std.slots (SimpleVector.array_ v') = new_capacity
       ∧ SimpleVector.GetSize v' = SimpleVector.GetSize v
       ∧ SimpleVector.elements v' = SimpleVector.elements v
       ∧ SimpleVector.Reserve new_capacity v' = SimpleVector.Return tt v')
  ∧ (SimpleVector.capacity_ v < new_capacity → max_slots < new_capacity →
     SimpleVector.Reserve new_capacity v = SimpleVector.Raise bad_alloc v).
Proof.
  intros (Hs & Hm & Hc & Hb). unfold std.slots in *. split_and!.
  - intros Hle. unfold SimpleVector.Reserve. by branch.
  - intros Hlt Hfit. unfold SimpleVector.Reserve, SimpleVector.begin, SimpleVector.end_.
    branch. rewrite new_Ok by lia. simpl.
    rewrite copy_Ok by (rewrite ?slots_replicate; unfold std.slots; lia). simpl.
    eexists. split; [done|].
    unfold SimpleVector.GetCapacity, SimpleVector.GetSize, SimpleVector.elements,
      std.slots. simpl.
    rewrite copy_loop_length, length_replicate, N.sub_0_r.
    split_and!; try done; try lia.
    + apply take_copy_loop; rewrite ?length_replicate; lia.
    + by branch.
  - intros Hlt Hbig. unfold SimpleVector.Reserve. branch.
    by rewrite new_bad_alloc.
Qed.

(** X10. [Erase] in a reachable state: at a position below the size it
    returns that position, removes the element there, moves the later
    elements one slot down in order, and lowers the size by one without
    touching the capacity; at [end()] or beyond, and so on every empty
    vector, the [assert] fails. *)
Theorem Erase_removes index v :
  max_slots ≤ PTRDIFF_MAX →
  inv v →
  (index < SimpleVector.size_ v →
   ∃ v',
     SimpleVector.Erase index v = SimpleVector.Return index v'
     ∧ SimpleVector.GetSize v' = SimpleVector.GetSize v - 1
     ∧ SimpleVector.GetCapacity v' = SimpleVector.GetCapacity v
     ∧ SimpleVector.elements v'
       = take (N.to_nat index) (SimpleVector.elements v)
         ++ drop (S (N.to_nat index)) (SimpleVector.elements v))
  ∧ (SimpleVector.size_ v ≤ index →
     SimpleVector.Erase index v = SimpleVector.Fault).
Proof.
  intros Hheap (Hs & Hm & Hc & Hb). split.
  - intros Hlt.
    destruct (Erase_in_block index v) as (v' & Hera & Hsize & Hcap & _ & Helems);
      [done|unfold SIZE_MAX, PTRDIFF_MAX in *; lia|done|].
    by exists v'.
  - intros Hge. unfold SimpleVector.Erase, SimpleVector.begin, SimpleVector.end_.
    by branch.
Qed.



End positions.

(** ** Element access *)

Section element_access.
Context {T : Type} `{!Default T} `{!Heap}.
Implicit Types v : SimpleVector.t T.

(** X14. [operator[]] and [At] in a reachable state: below the size they
    return the same element; from the size up to the end of the block
    [operator[]] still returns the slot's content, unchecked, where [At]
    throws [std::out_of_range]; beyond the block [operator[]] is
    undefined. *)
Theorem subscript_is_unchecked index v :
  inv v →
  (index < SimpleVector.size_ v →
   ∃ x, SimpleVector.elements v !! N.to_nat index = Some x
        ∧ SimpleVector.subscript index v = SimpleVector.Return x v
        ∧ SimpleVector.At index v = SimpleVector.Return x v)
  ∧ (SimpleVector.size_ v ≤ index → index < std.slots (SimpleVector.array_ v) →
     (∃ x, SimpleVector.subscript index v = SimpleVector.Return x v)
     ∧ SimpleVector.At index v = SimpleVector.Raise out_of_range v)
  ∧ (std.slots (SimpleVector.array_ v) ≤ index →
     SimpleVector.subscript index v = SimpleVector.Fault).
Proof.
  intros (Hs & _). unfold std.slots in *.
  unfold SimpleVector.subscript, SimpleVector.At, SimpleVector.elements, ArrayPtr.get.
  split_and!.
  - intros Hlt.
    destruct (lookup_is_Some_decide (SimpleVector.array_ v) (N.to_nat index))
      as [x Hx]; [lia|].
    exists x. rewrite lookup_take_lt by lia. rewrite Hx. by branch.
  - intros Hge Hlt.
    destruct (lookup_is_Some_decide (SimpleVector.array_ v) (N.to_nat index))
      as [x Hx]; [lia|].
    rewrite Hx. branch. split; [by exists x|done].
  - intros Hge.
    assert (@lookup nat T (list T) _ (N.to_nat index) (SimpleVector.array_ v) = None)
      as Hnone by (apply lookup_ge_None_2; lia).
    by rewrite Hnone.
Qed.

(** X15. Assigning through [operator[]] at a position below the size, in a
    reachable state: the call returns, [At] at that position then returns
    the value assigned, the other elements, the size and the capacity are
    as before. *)
Theorem subscript_assign_then_At index x v :
  inv v →
  index < SimpleVector.size_ v →
  ∃ v',
    SimpleVector.subscript_assign index x v = SimpleVector.Return tt v'
    ∧ SimpleVector.At index v' = SimpleVector.Return x v'
    ∧ SimpleVector.elements v' = <[N.to_nat index := x]> (SimpleVector.elements v)
    ∧ SimpleVector.GetSize v' = SimpleVector.GetSize v
    ∧ SimpleVector.GetCapacity v' = SimpleVector.GetCapacity v.
Proof.
  intros (Hs & _) Hlt. unfold std.slots in *.
  unfold SimpleVector.subscript_assign.
  rewrite set_Ok by (unfold std.slots; lia). simpl.
  eexists. split; [done|].
  unfold SimpleVector.At, SimpleVector.elements, SimpleVector.GetSize,
    SimpleVector.GetCapacity, ArrayPtr.get. simpl.
  rewrite list_lookup_insert_eq by lia. branch.
  split_and!; try done.
  by rewrite take_insert_lt by lia.
Qed.
End element_access.

(** ** Exceptions and faults *)

Section exceptions.
Context {T : Type} `{!Default T} `{!Heap}.
Implicit Types v : SimpleVector.t T.














(** X17. In every state a vector can reach, the elements lie inside the
    block the vector owns, so [[begin(), end())] is a valid range and [At]
    is never undefined; the block is one the heap granted; and the block
    has [capacity_] slots unless the vector owns no block, in which case
    it is empty. *)
Theorem reachable_elements_in_block v :
  reachable v →
  SimpleVector.size_ v ≤ std.slots (SimpleVector.array_ v)
  ∧ std.slots (SimpleVector.array_ v) ≤ max_slots
  ∧ (std.slots (SimpleVector.array_ v) = SimpleVector.capacity_ v
     ∨ SimpleVector.array_ v = ArrayPtr.null ∧ SimpleVector.size_ v = 0)
  ∧ std.range (SimpleVector.array_ v) (SimpleVector.begin v) (SimpleVector.end_ v)
    = Ok (SimpleVector.elements v)
  ∧ ∀ index, SimpleVector.At index v ≠ SimpleVector.Fault.
Proof.
  intros Hinv%reachable_inv. pose proof Hinv as (Hs & Hm & Hc & Hb).
  split_and!; try done.
  - destruct Hb as [Hb| Hb]; [by left|right]. split; [done|].
    rewrite Hb in Hs. unfold std.slots in Hs. simpl in Hs. lia.
  - by apply range_elements.
  - intros index. unfold SimpleVector.At, ArrayPtr.get.
    destruct (N.leb_spec (SimpleVector.size_ v) index) as [Hge|Hlt]; [done|].
    unfold std.slots in *.
    destruct (lookup_is_Some_decide (SimpleVector.array_ v) (N.to_nat index))
      as [x Hx]; [lia|].
    by rewrite Hx.
Qed.
End exceptions.

(** ** The comparison operators for any [operator<] *)

Section comparison_laws.
Context {T : Type} `{!Heap} `{!Less T}.
Implicit Types a b : SimpleVector.t T.

Lemma lexicographical_compare_neither (xs ys : list T) :
  std.lexicographical_compare less xs ys = false
  ∧ std.lexicographical_compare less ys xs = false
  ↔ Forall2 unordered xs ys.
Proof.
  revert ys. induction xs as [|x xs IH]; intros [|y ys]; simpl.
  - split; [constructor|done].
  - split; [by intros [? ?]|inversion 1].
  - split; [by intros [? ?]|inversion 1].
  - rewrite Forall2_cons. unfold unordered at 1.
    destruct (less x y) eqn:Hxy; destruct (less y x) eqn:Hyx; simpl;
      try (split; [by intros [? ?]|by intros [[? ?] _]]).
    rewrite IH. split; [by intros ?|by intros [_ ?]].
Qed.

Lemma lexicographical_compare_asym (xs ys : list T) :
  asymmetric T →
  std.lexicographical_compare less xs ys = true →
  std.lexicographical_compare less ys xs = false.
Proof.
  intros Hasym. revert ys.
  induction xs as [|x xs IH]; intros [|y ys]; simpl; try done.
  destruct (less x y) eqn:Hxy.
  - by rewrite (Hasym x y Hxy).
  - destruct (less y x) eqn:Hyx; [done|]. apply IH.
Qed.

(** X18. [operator==] for any element [operator<], in reachable states: it
    returns [true] exactly when the two vectors have the same number of
    elements and at every position neither element is less than the other;
    the capacities play no part. *)
Theorem eq_iff_pairwise_unordered a b :
  inv a → inv b →
  ∃ e : bool,
    SimpleVector.eq a b = Ok e
    ∧ SimpleVector.ne a b = Ok (negb e)
    ∧ (e = true
       ↔ Forall2 unordered (SimpleVector.elements a) (SimpleVector.elements b)).
Proof.
  intros Ha Hb.
  unfold SimpleVector.ne, SimpleVector.eq, SimpleVector.gt.
  rewrite !lt_Ok by done. simpl.
  pose proof (lexicographical_compare_neither (SimpleVector.elements a)
                (SimpleVector.elements b)) as Hneither.
  destruct (std.lexicographical_compare less (SimpleVector.elements a)
              (SimpleVector.elements b)),
    (std.lexicographical_compare less (SimpleVector.elements b)
       (SimpleVector.elements a)); simpl;
    eexists; (split; [done|]); (split; [done|]); rewrite <- Hneither;
    split; try done; by intros [? ?].
Qed.

(** X19. For an asymmetric element [operator<], in reachable states,
    exactly one of [a < b], [a == b] and [a > b] holds, [a <= b] is
    [a < b || a == b], [a >= b] is [a > b || a == b], and [a != b] is
    [a < b || a > b]. *)
Theorem comparison_trichotomy a b :
  asymmetric T → inv a → inv b →
  ∃ l e g : bool,
    SimpleVector.lt a b = Ok l
    ∧ SimpleVector.eq a b = Ok e
    ∧ SimpleVector.gt a b = Ok g
    ∧ SimpleVector.le a b = Ok (l || e)
    ∧ SimpleVector.ge a b = Ok (g || e)
    ∧ SimpleVector.ne a b = Ok (l || g)
    ∧ ((l = true ∧ e = false ∧ g = false)
       ∨ (l = false ∧ e = true ∧ g = false)
       ∨ (l = false ∧ e = false ∧ g = true)).
Proof.
  intros Hasym Ha Hb.
  pose proof (lexicographical_compare_asym (SimpleVector.elements a)
                (SimpleVector.elements b) Hasym) as Hab.
  pose proof (lexicographical_compare_asym (SimpleVector.elements b)
                (SimpleVector.elements a) Hasym) as Hba.
  unfold SimpleVector.ne, SimpleVector.le, SimpleVector.ge, SimpleVector.eq,
    SimpleVector.gt.
  rewrite !lt_Ok by done. simpl.
  destruct (std.lexicographical_compare less (SimpleVector.elements a)
              (SimpleVector.elements b)),
    (std.lexicographical_compare less (SimpleVector.elements b)
       (SimpleVector.elements a)); simpl.
  - by specialize (Hab eq_refl).
  - exists true, false, false. split_and!; try done. by left.
  - exists false, false, true. split_and!; try done. by right; right.
  - exists false, true, false. split_and!; try done. by right; left.
Qed.
End comparison_laws.

(** ** The further properties at concrete vectors *)

Ltac evaluate_inv := unfold inv; simpl; split_and!; [by vm_compute..|by left].
Ltac evaluate_wf := unfold wf; simpl; split_and!; by vm_compute.

Section more_examples.
#[local] Existing Instance N_Default.
#[local] Existing Instance N_Less.
#[local] Existing Instance heap_1000.

Lemma Resize_truncates_or_pads_witness :
  ∃ v',
    SimpleVector.Resize 5 v123 = SimpleVector.Return tt v'
    ∧ wf v'
    ∧ SimpleVector.GetSize v' = 5
    ∧ SimpleVector.GetCapacity v'
      = (if 5 <=? SimpleVector.capacity_ v123
         then SimpleVector.capacity_ v123
         else N.max 5 (SimpleVector.size_ v123 * 2))
    ∧ SimpleVector.elements v'
      = take (N.to_nat 5) (SimpleVector.elements v123)
        ++ replicate (N.to_nat (5 - SimpleVector.size_ v123)) value_init.
Proof.
  apply (Resize_truncates_or_pads 5 v123);
    [by vm_compute|evaluate_wf|intros _; by vm_compute].
Defined.





Lemma Reserve_sets_capacity_witness :
  (10 ≤ SimpleVector.capacity_ v123 →
   SimpleVector.Reserve 10 v123 = SimpleVector.Return tt v123)
  ∧ (SimpleVector.capacity_ v123 < 10 → 10 ≤ max_slots →
     ∃ v',
       SimpleVector.Reserve 10 v123 = SimpleVector.Return tt v'
       ∧ SimpleVector.GetCapacity v' = 10
       ∧ std.slots (SimpleVector.array_ v') = 10
       ∧ SimpleVector.GetSize v' = SimpleVector.GetSize v123
       ∧ SimpleVector.elements v' = SimpleVector.elements v123
       ∧ SimpleVector.Reserve 10 v' = SimpleVector.Return tt v')
  ∧ (SimpleVector.capacity_ v123 < 10 → max_slots < 10 →
     SimpleVector.Reserve 10 v123 = SimpleVector.Raise bad_alloc v123).
Proof. apply (Reserve_sets_capacity 10 v123). evaluate_inv. Defined.

Lemma Erase_removes_witness :
  (1 < SimpleVector.size_ v123 →
   ∃ v',
     SimpleVector.Erase 1 v123 = SimpleVector.Return 1 v'
     ∧ SimpleVector.GetSize v' = SimpleVector.GetSize v123 - 1
     ∧ SimpleVector.GetCapacity v' = SimpleVector.GetCapacity v123
     ∧ SimpleVector.elements v'
       = take (N.to_nat 1) (SimpleVector.elements v123)
         ++ drop (S (N.to_nat 1)) (SimpleVector.elements v123))
  ∧ (SimpleVector.size_ v123 ≤ 1 →
     SimpleVector.Erase 1 v123 = SimpleVector.Fault).
Proof. apply (Erase_removes 1 v123); [by vm_compute|evaluate_inv]. Defined.




Lemma subscript_is_unchecked_witness :
  (3 < SimpleVector.size_ v10_20_30_spare →
   ∃ x, SimpleVector.elements v10_20_30_spare !! N.to_nat 3 = Some x
        ∧ SimpleVector.subscript 3 v10_20_30_spare
          = SimpleVector.Return x v10_20_30_spare
        ∧ SimpleVector.At 3 v10_20_30_spare = SimpleVector.Return x v10_20_30_spare)
  ∧ (SimpleVector.size_ v10_20_30_spare ≤ 3 →
     3 < std.slots (SimpleVector.array_ v10_20_30_spare) →
     (∃ x, SimpleVector.subscript 3 v10_20_30_spare
           = SimpleVector.Return x v10_20_30_spare)
     ∧ SimpleVector.At 3 v10_20_30_spare
       = SimpleVector.Raise out_of_range v10_20_30_spare)
  ∧ (std.slots (SimpleVector.array_ v10_20_30_spare) ≤ 3 →
     SimpleVector.subscript 3 v10_20_30_spare = SimpleVector.Fault).
Proof. apply (subscript_is_unchecked 3 v10_20_30_spare). evaluate_inv. Defined.

Lemma subscript_assign_then_At_witness :
  ∃ v',
    SimpleVector.subscript_assign 1 99 v123 = SimpleVector.Return tt v'
    ∧ SimpleVector.At 1 v' = SimpleVector.Return 99 v'
    ∧ SimpleVector.elements v' = <[N.to_nat 1 := 99]> (SimpleVector.elements v123)
    ∧ SimpleVector.GetSize v' = SimpleVector.GetSize v123
    ∧ SimpleVector.GetCapacity v' = SimpleVector.GetCapacity v123.
Proof.
  apply (subscript_assign_then_At 1 99 v123); [evaluate_inv|by vm_compute].
Defined.


Lemma reachable_elements_in_block_witness :
  SimpleVector.size_ v7 ≤ std.slots (SimpleVector.array_ v7)
  ∧ std.slots (SimpleVector.array_ v7) ≤ max_slots
  ∧ (std.slots (SimpleVector.array_ v7) = SimpleVector.capacity_ v7
     ∨ SimpleVector.array_ v7 = ArrayPtr.null ∧ SimpleVector.size_ v7 = 0)
  ∧ std.range (SimpleVector.array_ v7) (SimpleVector.begin v7) (SimpleVector.end_ v7)
    = Ok (SimpleVector.elements v7)
  ∧ ∀ index, SimpleVector.At index v7 ≠ SimpleVector.Fault.
Proof.
  apply (reachable_elements_in_block v7).
  apply (reach_PushBack 7 SimpleVector.default v7 reach_default).
  reflexivity.
Defined.

Lemma eq_iff_pairwise_unordered_witness :
  ∃ e : bool,
    SimpleVector.eq v123 v124 = Ok e
    ∧ SimpleVector.ne v123 v124 = Ok (negb e)
    ∧ (e = true
       ↔ Forall2 unordered (SimpleVector.elements v123) (SimpleVector.elements v124)).
Proof. apply (eq_iff_pairwise_unordered v123 v124); evaluate_inv. Defined.

Lemma comparison_trichotomy_witness :
  ∃ l e g : bool,
    SimpleVector.lt v123 v124 = Ok l
    ∧ SimpleVector.eq v123 v124 = Ok e
    ∧ SimpleVector.gt v123 v124 = Ok g
    ∧ SimpleVector.le v123 v124 = Ok (l || e)
    ∧ SimpleVector.ge v123 v124 = Ok (g || e)
    ∧ SimpleVector.ne v123 v124 = Ok (l || g)
    ∧ ((l = true ∧ e = false ∧ g = false)
       ∨ (l = false ∧ e = true ∧ g = false)
       ∨ (l = false ∧ e = false ∧ g = true)).
Proof.
  apply (comparison_trichotomy v123 v124).
  - intros x y Hxy%N.ltb_lt. apply N.ltb_ge. lia.
  - evaluate_inv.
  - evaluate_inv.
Defined.
End more_examples.
